(** * Genre-trend pipeline of [analyze_trend.py]: a shallow embedding

    The program is a chain of pandas operations.  Every pandas operation
    the source calls is embedded as a function over a small table model,
    and the source functions that carry the pipeline
    ([only_genres_for_top_n], [analyze_trend], [normalize], [drop_if],
    [plot_trend] with its nested [not_minimum_requirement]) are composed
    from them in the order the source chains them.

    Modelling decisions, fixed once here:
    - a numeric cell is a float64 idealised as an exact rational, plus the
      three special values [PInf], [NInf], [NaN]; rounding and the sign of
      zero are not modelled.  Finite results are kept in lowest terms
      ([Qred]) so that concrete tables compare with [=];
    - a data frame is row oriented: the column labels, and for every row
      its [Year], its [Season] and the numeric cells in column order.
      [Year] and [Season] are the two key columns of the source; after a
      [groupby] they are the row index.  Non-numeric columns other than
      [Season] are left out: the group-wise sum discards them and they are
      all listed in [basic_headers];
    - pandas semantics are those of the 1.0 series, current when the
      program was written: [groupby] over a categorical key with the
      default [observed=False] re-indexes an aggregation to the product of
      the key levels and fills the unobserved combinations with NaN (which
      is what the source's [dropna()] then removes), [groupby] skips rows
      whose key is NaN, [nlargest] ignores NaN scores;
    - [basic_headers] is imported from a module outside this file and is a
      parameter of the model. *)

From Stdlib Require Import String ZArith QArith Qreduction List Bool Lia
  Sorted Permutation PeanoNat Setoid Morphisms OrderedTypeEx.
Import ListNotations.

Open Scope string_scope.
Open Scope list_scope.
Open Scope Z_scope.

Set Implicit Arguments.

(** ** Exceptions and the result of a fallible call *)

Inductive exn : Type :=
| KeyError (label : string)
| IndexError
| ValueError.

Inductive result (A : Type) : Type :=
| Ok (a : A)
| Raise (e : exn).

Arguments Ok {A} a.
Arguments Raise {A} e.

Definition bind {A B : Type} (m : result A) (k : A -> result B) : result B :=
  match m with
  | Ok a => k a
  | Raise e => Raise e
  end.

Notation "x <- m ;; k" := (bind m (fun x => k))
  (at level 61, m at next level, right associativity).

Definition fmap {A B : Type} (f : A -> B) (m : result A) : result B :=
  x <- m ;; Ok (f x).

(** [mapM f l] runs [f] on the elements from left to right and stops at the
    first exception. *)
Fixpoint mapM {A B : Type} (f : A -> result B) (l : list A) : result (list B) :=
  match l with
  | [] => Ok []
  | a :: t => b <- f a ;; bs <- mapM f t ;; Ok (b :: bs)
  end.

(** ** Numeric cells *)

Module Num.

Inductive value : Type :=
| Fin (q : Q)
| PInf
| NInf
| NaN.

Definition of_Z (z : Z) : value := Fin (inject_Z z).

Definition isna (v : value) : bool :=
  match v with NaN => true | _ => false end.

Definition notna (v : value) : bool := negb (isna v).

Definition Qlt_bool (a b : Q) : bool := negb (Qle_bool b a).

(** IEEE addition on the idealised values. *)
Definition add (a b : value) : value :=
  match a, b with
  | NaN, _ | _, NaN => NaN
  | PInf, NInf | NInf, PInf => NaN
  | PInf, _ | _, PInf => PInf
  | NInf, _ | _, NInf => NInf
  | Fin x, Fin y => Fin (Qred (x + y))
  end.

(** IEEE division: [x / 0] is an infinity of the sign of [x], [0 / 0] and
    [inf / inf] are NaN, a finite value over an infinity is [0]. *)
Definition div (a b : value) : value :=
  match a, b with
  | NaN, _ | _, NaN => NaN
  | Fin x, Fin y =>
      if Qeq_bool y 0 then
        if Qeq_bool x 0 then NaN
        else if Qlt_bool 0 x then PInf else NInf
      else Fin (Qred (x / y))
  | Fin _, (PInf | NInf) => Fin 0
  | (PInf | NInf), (PInf | NInf) => NaN
  | PInf, Fin y => if Qlt_bool y 0 then NInf else PInf
  | NInf, Fin y => if Qlt_bool y 0 then PInf else NInf
  end.

(** [a <= b] as floats compare: false as soon as one side is NaN. *)
Definition leb (a b : value) : bool :=
  match a, b with
  | NaN, _ | _, NaN => false
  | NInf, _ => true
  | _, PInf => true
  | PInf, _ => false
  | _, NInf => false
  | Fin x, Fin y => Qle_bool x y
  end.

Definition ltb (a b : value) : bool :=
  match a, b with
  | NaN, _ | _, NaN => false
  | _, _ => negb (leb b a)
  end.

(** Numeric equality of two cells, NaN matching NaN (the comparison used
    to say that two tables hold the same numbers). *)
Definition equiv (a b : value) : Prop :=
  match a, b with
  | Fin x, Fin y => x == y
  | PInf, PInf | NInf, NInf | NaN, NaN => True
  | _, _ => False
  end.

(** [Series.sum()] / [DataFrame.sum()] with the default [skipna=True] and
    [min_count=0]: NaN entries are left out, the empty sum is [0]. *)
Definition sum (l : list value) : value :=
  fold_right add (Fin 0) (filter notna l).

End Num.

Import Num.

(** ** Sorting helpers

    [sort_uniq] is what pandas calls the sorted unique values of a key
    (the levels of a grouping, the result of [Index.difference]);
    [sort_desc] is a stable descending sort by a numeric key. *)

Section SortUniq.
Variable A : Type.
Variable lt_b eq_b : A -> A -> bool.

Fixpoint insert_uniq (x : A) (l : list A) : list A :=
  match l with
  | [] => [x]
  | y :: t =>
      if lt_b x y then x :: l
      else if eq_b x y then l
      else y :: insert_uniq x t
  end.

Definition sort_uniq (l : list A) : list A := fold_right insert_uniq [] l.
End SortUniq.

Section SortDesc.
Variable A : Type.
Variable key : A -> value.

(** [x] goes before the first element that is not larger than it, so
    equal keys keep the order they had. *)
Fixpoint insert_desc (x : A) (l : list A) : list A :=
  match l with
  | [] => [x]
  | y :: t => if Num.leb (key y) (key x) then x :: l else y :: insert_desc x t
  end.

Definition sort_desc (l : list A) : list A := fold_right insert_desc [] l.
End SortDesc.

(** ** The table model *)

Inductive season : Type := winter | spring | summer | fall.

(** The category codes of
    [pd.Categorical(_, ["winter", "spring", "summer", "fall"])]. *)
Definition season_code (s : season) : Z :=
  match s with winter => 0 | spring => 1 | summer => 2 | fall => 3 end.

Definition categories : list season := [winter; spring; summer; fall].

Definition season_eqb (a b : season) : bool := season_code a =? season_code b.

(** A value outside the categories becomes NaN ([None]). *)
Definition Categorical (s : string) : option season :=
  if String.eqb s "winter" then Some winter
  else if String.eqb s "spring" then Some spring
  else if String.eqb s "summer" then Some summer
  else if String.eqb s "fall" then Some fall
  else None.

Record row (T : Type) : Type := mkRow {
  Year : Z;
  Season : T;
  cells : list value
}.

Record frame (T : Type) : Type := mkFrame {
  columns : list string;
  rows : list (row T)
}.

(** The frames of the pipeline after the [Season] column was made
    categorical. *)
Definition crow : Type := row (option season).
Definition cframe : Type := frame (option season).

(** [columns.get_loc(label)]: position of the first column of that label. *)
Fixpoint get_loc (label : string) (cols : list string) : option nat :=
  match cols with
  | [] => None
  | c :: t => if String.eqb label c then Some O
              else option_map S (get_loc label t)
  end.

Definition mem (label : string) (l : list string) : bool :=
  existsb (String.eqb label) l.

Section Frames.
Variable T : Type.

(** The cell of a row in the column at position [j]. *)
Definition cell (j : nat) (r : row T) : value := nth j (cells r) NaN.

(** [len(df)] *)
Definition len (df : frame T) : nat := length (rows df).

(** A frame is rectangular. *)
Definition wf (df : frame T) : Prop :=
  forall r, In r (rows df) -> length (cells r) = length (columns df).

(** [df.dropna(subset=[label])] *)
Definition dropna_subset (label : string) (df : frame T) : result (frame T) :=
  match get_loc label (columns df) with
  | None => Raise (KeyError label)
  | Some j => Ok (mkFrame (columns df)
                    (filter (fun r => notna (cell j r)) (rows df)))
  end.

(** [df.dropna()]: the default [how="any"] removes every row that holds
    at least one NaN. *)
Definition dropna (df : frame T) : frame T :=
  mkFrame (columns df) (filter (fun r => forallb notna (cells r)) (rows df)).

(** [df.tail(count)] *)
Definition tail (count : nat) (df : frame T) : frame T :=
  mkFrame (columns df) (skipn (len df - count) (rows df)).

(** The [n]-th largest of a list of scores, [kth_smallest(-arr, n - 1)]
    in pandas. *)
Definition kth_largest (n : nat) (scores : list value) : option value :=
  nth_error (sort_desc (fun v => v) scores) (n - 1).

(** [Series.nlargest(n, keep="all")] on the column at position [j],
    returning the selected rows: nothing for [n <= 0]; NaN scores are
    left out; when [n] reaches the length of the group every remaining
    row is taken; otherwise every row whose score is at least the
    [min(n, narr)]-th largest one, "even if it means selecting more than
    n items".  The result is in descending order of score (pandas leaves
    the order among equal scores to its sort; the model keeps theirs). *)
Definition series_nlargest_all (n : Z) (j : nat) (rs : list (row T))
  : list (row T) :=
  if n <=? 0 then []
  else
    let dropped := filter (fun r => notna (cell j r)) rs in
    if Z.of_nat (length rs) <=? n then
      firstn (Z.to_nat n) (sort_desc (cell j) dropped)
    else
      let narr := length dropped in
      match kth_largest (Nat.min (Z.to_nat n) narr) (map (cell j) dropped) with
      | None => []
      | Some kth_val =>
          sort_desc (cell j)
            (filter (fun r => Num.leb kth_val (cell j r)) dropped)
      end.

(** [df.nlargest(n, label, keep="all")] *)
Definition nlargest_all (n : Z) (label : string) (df : frame T)
  : result (frame T) :=
  match get_loc label (columns df) with
  | None => Raise (KeyError label)
  | Some j => Ok (mkFrame (columns df) (series_nlargest_all n j (rows df)))
  end.
End Frames.

(** ** Grouping by [["Year", "Season"]] *)

Definition key : Type := (Z * season)%type.

(** A row belongs to the group of [k]; a row whose [Season] is NaN
    belongs to no group. *)
Definition has_key (k : key) (r : crow) : bool :=
  match Season r with
  | Some s => (Year r =? fst k) && season_eqb s (snd k)
  | None => false
  end.

(** The levels of the [Year] grouping: its sorted unique values. *)
Definition year_levels (rs : list crow) : list Z :=
  sort_uniq Z.ltb Z.eqb (map (@Year _) rs).

(** [MultiIndex.from_product]: every year level with every category, which
    is also the sorted order of the keys. *)
Definition product (ys : list Z) (ss : list season) : list key :=
  flat_map (fun y => map (pair y) ss) ys.

Definition get_group (k : key) (rs : list crow) : list crow :=
  filter (has_key k) rs.

(** The keys of the groups that hold at least one row, in sorted order. *)
Definition group_keys (rs : list crow) : list key :=
  filter (fun k => existsb (has_key k) rs)
    (product (year_levels rs) categories).

(** [df.groupby(["Year", "Season"]).apply(f)] for an [f] that selects rows
    of its group: [f] runs on every non-empty group in key order and the
    parts are concatenated. *)
Definition groupby_apply (f : cframe -> result cframe) (df : cframe)
  : result cframe :=
  parts <- mapM (fun k => f (mkFrame (columns df) (get_group k (rows df))))
             (group_keys (rows df)) ;;
  Ok (mkFrame (columns df) (flat_map (@rows _) parts)).

(** [.reset_index(drop=True)]: the keys that [apply] put in front of the
    row labels are discarded; [Year] and [Season] stay as columns. *)
Definition reset_index_drop (df : cframe) : cframe := df.

(** The row that the group-wise sum holds for the key [k]: the column
    sums of the group of [k], or NaN in every column when no row has that
    key. *)
Definition group_sum (df : cframe) (k : key) : crow :=
  let g := get_group k (rows df) in
  mkRow (fst k) (Some (snd k))
    (match g with
     | [] => map (fun _ => NaN) (columns df)
     | _ :: _ =>
         map (fun j => Num.sum (map (cell j) g))
           (seq 0 (length (columns df)))
     end).

(** [df.groupby(["Year", "Season"]).sum()]: one row per element of the
    product of the key levels, indexed by the key. *)
Definition groupby_sum (df : cframe) : cframe :=
  mkFrame (columns df)
    (map (group_sum df) (product (year_levels (rows df)) categories)).

(** ** Column selection *)

(** [columns.difference(other)]: the labels not in [other], unique and
    sorted. *)
Definition columns_difference (cols other : list string) : list string :=
  sort_uniq String.ltb String.eqb
    (filter (fun c => negb (mem c other)) cols).

(** Boolean-mask indexing, [index[mask]], for a mask of the right length. *)
Fixpoint keep_mask {A : Type} (mask : list bool) (l : list A) : list A :=
  match mask, l with
  | b :: m, x :: t => if b then x :: keep_mask m t else keep_mask m t
  | _, _ => []
  end.

Section Columns.
Variable T : Type.

(** [df[labels]] *)
Definition getitem_columns (labels : list string) (df : frame T)
  : result (frame T) :=
  locs <- mapM (fun c => match get_loc c (columns df) with
                         | Some j => Ok j
                         | None => Raise (KeyError c)
                         end) labels ;;
  Ok (mkFrame labels
        (map (fun r => mkRow (Year r) (Season r)
                         (map (fun j => cell j r) locs))
           (rows df))).

(** [df.drop(labels, axis=1)]: every column carrying one of the labels
    goes; a label that names no column is a [KeyError]. *)
Definition drop_columns (labels : list string) (df : frame T)
  : result (frame T) :=
  match find (fun c => negb (mem c (columns df))) labels with
  | Some c => Raise (KeyError c)
  | None =>
      let keep := map (fun c => negb (mem c labels)) (columns df) in
      Ok (mkFrame (keep_mask keep (columns df))
            (map (fun r => mkRow (Year r) (Season r)
                             (keep_mask keep (cells r)))
               (rows df)))
  end.

(** [df.sum(axis=1)] *)
Definition sum_axis1 (df : frame T) : list value :=
  map (fun r => Num.sum (cells r)) (rows df).

(** [df.div(s, axis=0)] for a series [s] that carries the index of [df]:
    every cell is divided by the entry of its row. *)
Definition div_axis0 (df : frame T) (s : list value) : frame T :=
  mkFrame (columns df)
    (map (fun rd => mkRow (Year (fst rd)) (Season (fst rd))
                      (map (fun v => Num.div v (snd rd)) (cells (fst rd))))
       (combine (rows df) s)).

(** [(df >= x).sum()]: for every column, in how many rows the cell is at
    least [x]. *)
Definition count_ge (x : value) (df : frame T) : list nat :=
  map (fun j => length (filter (fun r => Num.leb x (cell j r)) (rows df)))
    (seq 0 (length (columns df))).
End Columns.

(** ** The source functions *)

Section Source.
(** [from build_dataset import basic_headers] *)
Variable basic_headers : list string.

(** The first half of the chain in [only_genres_for_top_n]:
    [df.groupby(...).apply(lambda season: season.nlargest(n, "Score",
    keep="all")).reset_index(drop=True)]. *)
Definition select_top_n (df : cframe) (n : Z) : result cframe :=
  fmap reset_index_drop (groupby_apply (nlargest_all n "Score") df).

(** The second half: [.groupby(...).sum().dropna()] and the selection of
    [grouped.columns.difference(basic_headers)]. *)
Definition aggregate_genres (selected : cframe) : result cframe :=
  let grouped := dropna (groupby_sum selected) in
  getitem_columns (columns_difference (columns grouped) basic_headers)
    grouped.

Definition only_genres_for_top_n (df : cframe) (n : Z) : result cframe :=
  selected <- select_top_n df n ;;
  aggregate_genres selected.

Section AnyIndex.
Variable T : Type.

Definition normalize (df : frame T) : frame T :=
  div_axis0 df (sum_axis1 df).

Definition drop_if (condition : frame T -> list bool) (df : frame T)
  : result (frame T) :=
  let mask := condition df in
  if (length mask =? length (columns df))%nat then
    let columns_to_drop := keep_mask mask (columns df) in
    drop_columns columns_to_drop df
  else Raise IndexError.

(** The consistency requirement, generalised over the two constants of
    the source ([20] seasons, [0.4]) so that the statement of the
    threshold can be read for any window and fraction.  [count *
    min_fraction] is the exact product; for the source's [0.4] the
    float product compares with an integer the same way. *)
Section Consistency.
Variable window : nat.
Variable min_fraction : Q.

Definition not_minimum_requirement_for (count : nat) (df : frame T)
  : list bool :=
  map (fun s => Qlt_bool (inject_Z (Z.of_nat s))
                  (inject_Z (Z.of_nat count) * min_fraction))
    (count_ge (of_Z 1) df).

(** [plot_trend] up to the table it hands to [plot_stacked_area]. *)
Definition plot_trend_for (df : frame T) : result (frame T) :=
  let count := Nat.min window (len df) in
  let recent := tail count df in
  fmap normalize (drop_if (not_minimum_requirement_for count) recent).
End Consistency.

Definition not_minimum_requirement : nat -> frame T -> list bool :=
  not_minimum_requirement_for (4 # 10).

Definition plot_trend : frame T -> result (frame T) :=
  plot_trend_for 20 (4 # 10).

(** [plot_heatmap] up to the table it draws (before the transposition,
    which only swaps the axes of the picture). *)
Definition plot_heatmap (df : frame T) : frame T := normalize df.
End AnyIndex.

(** [df["Season"] = pd.Categorical(df["Season"], [...])] *)
Definition set_season_categorical (df : frame string) : cframe :=
  mkFrame (columns df)
    (map (fun r => mkRow (Year r) (Categorical (Season r)) (cells r))
       (rows df)).

(** [analyze_trend], returning the three tables that are drawn: the
    trend of the top 5, the trend of the top 10, the heatmap of the
    top 10. *)
Definition analyze_trend (df : frame string)
  : result (cframe * cframe * cframe) :=
  df <- dropna_subset "Score" df ;;
  let df := set_season_categorical df in
  only_genres <- only_genres_for_top_n df 5 ;;
  trend5 <- plot_trend only_genres ;;
  only_genres <- only_genres_for_top_n df 10 ;;
  trend10 <- plot_trend only_genres ;;
  Ok (trend5, trend10, plot_heatmap only_genres).
End Source.

(** ** [plot_stacked_area], up to the drawing *)

(** The two colour maps the source chooses from. *)
Inductive colormap : Type := gist_ncar | tab20.

(** The order of [sort_values(ascending=False)]: [a] may stand before [b]
    when [b] is NaN (NaN goes last) or [b <= a]. *)
Definition before_desc (a b : value) : bool :=
  if isna b then true else if isna a then false else Num.leb b a.

(** [Series.sort_values(ascending=False)] on the entries (label, value)
    of a series (pandas leaves the order among equal values to its sort;
    the model keeps theirs). *)
Fixpoint insert_entry (x : string * value) (l : list (string * value))
  : list (string * value) :=
  match l with
  | [] => [x]
  | y :: t => if before_desc (snd x) (snd y) then x :: l
              else y :: insert_entry x t
  end.

Definition sort_values_desc (s : list (string * value))
  : list (string * value) :=
  fold_right insert_entry [] s.

Fixpoint is_unique (l : list string) : bool :=
  match l with
  | [] => true
  | c :: t => negb (mem c t) && is_unique t
  end.

Fixpoint labels_eqb (a b : list string) : bool :=
  match a, b with
  | [], [] => true
  | x :: a', y :: b' => String.eqb x y && labels_eqb a' b'
  | _, _ => false
  end.

Section StackedArea.
Variable T : Type.

(** [df.sum()]: the sum of every column, as a series over the labels. *)
Definition sum_axis0 (df : frame T) : list (string * value) :=
  combine (columns df)
    (map (fun j => Num.sum (map (cell j) (rows df)))
       (seq 0 (length (columns df)))).

(** [df.reindex(labels, axis=1)]: nothing to do when the labels are the
    columns as they stand; otherwise the columns are looked up by label
    (a label without a column gives a NaN column), which pandas refuses
    on duplicate column labels. *)
Definition reindex_columns (labels : list string) (df : frame T)
  : result (frame T) :=
  if labels_eqb labels (columns df) then Ok df
  else if is_unique (columns df) then
    Ok (mkFrame labels
          (map (fun r => mkRow (Year r) (Season r)
                           (map (fun c => match get_loc c (columns df) with
                                          | Some j => cell j r
                                          | None => NaN
                                          end) labels))
             (rows df)))
  else Raise ValueError.

(** [plot_stacked_area] up to what is drawn: the table with its columns
    in descending order of their sums, and the colour map. *)
Definition plot_stacked_area (df : frame T) : result (frame T * colormap) :=
  df <- reindex_columns (map fst (sort_values_desc (sum_axis0 df))) df ;;
  let cmap := if (20 <? length (columns df))%nat then gist_ncar else tab20 in
  Ok (df, cmap).
End StackedArea.

(** ** Vocabulary of the statements *)

(** A cell of the data model before normalisation: finite or null. *)
Definition finite_or_na (v : value) : Prop :=
  match v with Fin _ | NaN => True | _ => False end.

(** A genre count: a non-negative number, or null. *)
Definition count_or_na (v : value) : Prop :=
  match v with Fin q => (0 <= q)%Q | NaN => True | _ => False end.

(** The exact sum of the finite entries of a list. *)
Fixpoint qsum (l : list value) : Q :=
  match l with
  | [] => 0%Q
  | Fin q :: t => (q + qsum t)%Q
  | _ :: t => qsum t
  end.

Section Vocabulary.
Variable T : Type.

(** What [normalize] does to one row. *)
Definition normalize_row (r : row T) : row T :=
  mkRow (Year r) (Season r)
    (map (fun v => Num.div v (Num.sum (cells r))) (cells r)).

(** Two rows, two tables hold the same numbers under the same keys. *)
Definition row_equiv (a b : row T) : Prop :=
  Year a = Year b /\ Season a = Season b /\
  Forall2 equiv (cells a) (cells b).

Definition frame_equiv (a b : frame T) : Prop :=
  columns a = columns b /\ Forall2 row_equiv (rows a) (rows b).

(** The cell of row [r] of table [df] under a column label. *)
Definition get_cell (df : frame T) (label : string) (r : row T)
  : option value :=
  option_map (fun j => cell j r) (get_loc label (columns df)).

(** In how many rows of [df] the column at position [j] is at least 1. *)
Definition appearances (j : nat) (df : frame T) : nat :=
  length (filter (fun r => Num.leb (of_Z 1) (cell j r)) (rows df)).
End Vocabulary.

(** Chronological order of partition keys: by year, then by the code of
    the season category (NaN has code -1). *)
Definition season_rank (s : option season) : Z :=
  match s with Some c => season_code c | None => -1 end.

Definition chrono_lt (a b : Z * option season) : Prop :=
  fst a < fst b \/ (fst a = fst b /\ season_rank (snd a) < season_rank (snd b)).

Definition index_key (r : crow) : Z * option season := (Year r, Season r).

Definition key_lt (a b : key) : Prop :=
  fst a < fst b \/ (fst a = fst b /\ season_code (snd a) < season_code (snd b)).

(** How many rows of a group have, in the column at position [j], a
    score strictly above the score of [r]. *)
Definition strictly_above (T : Type) (j : nat) (r : row T)
    (rs : list (row T)) : nat :=
  length (filter (fun x => Num.ltb (cell j r) (cell j x)) rs).

(** The position a label resolves to in a list of labels that holds it. *)
Definition loc_of (label : string) (cols : list string) : nat :=
  match get_loc label cols with Some j => j | None => O end.

(** A list sorted in descending order of a numeric key relates every
    element to the later ones by [descending]. *)
Definition descending (A : Type) (key : A -> value) (a b : A) : Prop :=
  Num.leb (key b) (key a) = true.

(** The labels [only_genres_for_top_n] selects, and the row it returns for
    a row of the grouped table. *)
Definition genre_labels (basic_headers : list string) (selected : cframe)
  : list string :=
  columns_difference (columns selected) basic_headers.

Definition project (basic_headers : list string) (selected : cframe)
    (r : crow) : crow :=
  mkRow (Year r) (Season r)
    (map (fun c => cell (loc_of c (columns selected)) r)
       (genre_labels basic_headers selected)).

(** A proportion: a number between 0 and 1, or null. *)
Definition proportion_or_na (v : value) : Prop :=
  match v with Fin q => (0 <= q /\ q <= 1)%Q | NaN => True | _ => False end.

(** The spelling of a season in the data. *)
Definition season_name (s : season) : string :=
  match s with
  | winter => "winter"
  | spring => "spring"
  | summer => "summer"
  | fall => "fall"
  end.


(** The sum of the column of a label. *)
Definition column_total (T : Type) (df : frame T) (label : string) : value :=
  Num.sum (map (cell (loc_of label (columns df))) (rows df)).

(** ** Sample tables *)

(** A table with a count row and an all-zero row, used to run the
    Normalizer. *)
Definition counts_sample : frame season :=
  mkFrame ["A"; "B"; "C"]
    [mkRow 2020 fall [Fin 2; Fin 2; Fin 0];
     mkRow 2021 winter [Fin 0; Fin 0; Fin 0]].

(** A table whose rows already add up to 1. *)
Definition proportions_sample : frame season :=
  mkFrame ["A"; "B"; "C"]
    [mkRow 2020 fall [Fin (1 # 2); Fin (1 # 2); Fin 0];
     mkRow 2021 winter [Fin (1 # 4); NaN; Fin (3 # 4)]].

(** Ten partitions; genre "A" is present in exactly four of them and
    genre "B" in exactly three. *)
Definition ten_seasons : frame season :=
  mkFrame ["A"; "B"]
    [mkRow 2018 winter [Fin 1; Fin 0];
     mkRow 2018 spring [Fin 0; Fin 2];
     mkRow 2018 summer [Fin 0; Fin 0];
     mkRow 2018 fall [Fin 3; Fin 0];
     mkRow 2019 winter [Fin 0; Fin 1];
     mkRow 2019 spring [Fin 0; Fin 0];
     mkRow 2019 summer [Fin 1; Fin 0];
     mkRow 2019 fall [Fin 0; Fin 0];
     mkRow 2020 winter [Fin 2; Fin 1];
     mkRow 2020 spring [Fin 0; Fin 0]].

(** One partition of seven rated items; the fifth and the sixth score
    are equal. *)
Definition tie_sample : cframe :=
  mkFrame ["Score"; "Action"; "Drama"]
    [mkRow 2020 (Some fall) [Fin 9; Fin 1; Fin 0];
     mkRow 2020 (Some fall) [Fin 5; Fin 0; Fin 1];
     mkRow 2020 (Some fall) [Fin 8; Fin 1; Fin 1];
     mkRow 2020 (Some fall) [Fin 4; Fin 1; Fin 0];
     mkRow 2020 (Some fall) [Fin 7; Fin 0; Fin 1];
     mkRow 2020 (Some fall) [Fin 5; Fin 1; Fin 0];
     mkRow 2020 (Some fall) [Fin 6; Fin 1; Fin 0]].

(** A raw table as read from the file: partitions in the order
    (2020, fall), (2021, winter), (2020, winter), one item without a
    score and one in a season outside the four categories. *)
Definition raw_sample : frame string :=
  mkFrame ["Score"; "Rank"; "Action"; "Drama"]
    [mkRow 2020 "fall" [Fin 9; Fin 1; Fin 1; Fin 0];
     mkRow 2021 "winter" [Fin 7; Fin 3; Fin 1; Fin 1];
     mkRow 2020 "winter" [Fin 8; Fin 2; Fin 0; Fin 1];
     mkRow 2020 "fall" [NaN; Fin 9; Fin 1; Fin 1];
     mkRow 2020 "fall" [Fin 6; Fin 4; Fin 0; Fin 1];
     mkRow 2021 "autumn" [Fin 5; Fin 5; Fin 1; Fin 1]].

(** Two selected rows of one partition, (A=1, B=0) and (A=0, B=1). *)
Definition pair_sample : cframe :=
  mkFrame ["Score"; "A"; "B"]
    [mkRow 2020 (Some fall) [Fin 9; Fin 1; Fin 0];
     mkRow 2020 (Some fall) [Fin 8; Fin 0; Fin 1]].


(** * Properties *)

(** ** Numeric cells *)

Module NumFacts.

Lemma Qlt_bool_iff (a b : Q) : Qlt_bool a b = true <-> (a < b)%Q.
Proof.
  unfold Qlt_bool. rewrite negb_true_iff.
  split; intro H.
  - apply Qnot_le_lt. intro L. apply Qle_bool_iff in L. congruence.
  - destruct (Qle_bool b a) eqn:E; [|reflexivity].
    apply Qle_bool_iff in E. exfalso. exact (Qlt_not_le _ _ H E).
Qed.

Lemma Qeq_bool_false (a b : Q) : Qeq_bool a b = false <-> ~ (a == b)%Q.
Proof.
  split; intro H.
  - intro E. apply Qeq_bool_iff in E. congruence.
  - destruct (Qeq_bool a b) eqn:E; [|reflexivity].
    apply Qeq_bool_iff in E. contradiction.
Qed.

Lemma equiv_refl (v : value) : equiv v v.
Proof. destruct v; simpl; auto. reflexivity. Qed.

Lemma equiv_sym (a b : value) : equiv a b -> equiv b a.
Proof. destruct a, b; simpl; auto. intro H. symmetry. exact H. Qed.

Lemma equiv_trans (a b c : value) : equiv a b -> equiv b c -> equiv a c.
Proof.
  destruct a, b, c; simpl; auto; try contradiction.
  intros H1 H2. rewrite H1. exact H2.
Qed.

#[global] Instance equiv_Equivalence : Equivalence equiv.
Proof.
  split; [exact equiv_refl | exact equiv_sym | exact equiv_trans].
Qed.

Lemma leb_refl (v : value) : notna v = true -> Num.leb v v = true.
Proof.
  destruct v; simpl; auto; try discriminate.
  intros _. apply Qle_bool_iff. apply Qle_refl.
Qed.

Lemma leb_equiv (a b : value) :
  notna a = true -> equiv a b -> Num.leb b a = true.
Proof.
  destruct a, b; simpl; auto; try contradiction; try discriminate.
  intros _ H. apply Qle_bool_iff. rewrite H. apply Qle_refl.
Qed.

Lemma count_finite (v : value) : count_or_na v -> finite_or_na v.
Proof. destruct v; simpl; auto. Qed.

Lemma sum_cons (v : value) (l : list value) :
  Num.sum (v :: l) = if isna v then Num.sum l else add v (Num.sum l).
Proof. unfold Num.sum. simpl. unfold notna. destruct (isna v); reflexivity. Qed.

Lemma sum_finite (l : list value) :
  Forall finite_or_na l -> exists s, Num.sum l = Fin s /\ (s == qsum l)%Q.
Proof.
  induction 1 as [|v l Hv _ IH].
  - exists 0%Q. split; reflexivity.
  - destruct IH as [s [Hs Hq]]. rewrite sum_cons, Hs.
    destruct v; simpl in *; try contradiction.
    + exists (Qred (q + s)). split; [reflexivity|].
      rewrite Qred_correct, Hq. reflexivity.
    + exists s. split; [reflexivity | exact Hq].
Qed.

Lemma sum_Fin_inv (l : list value) (s : Q) :
  Num.sum l = Fin s -> Forall finite_or_na l.
Proof.
  revert s. induction l as [|v l IH]; intros s H; constructor.
  - rewrite sum_cons in H.
    destruct v; simpl in *; auto; destruct (Num.sum l); discriminate.
  - rewrite sum_cons in H. destruct v; simpl in H.
    + destruct (Num.sum l) eqn:E; try discriminate. eapply IH; reflexivity.
    + destruct (Num.sum l); discriminate.
    + destruct (Num.sum l); discriminate.
    + eapply IH; eassumption.
Qed.

Lemma sum_never_na (l : list value) :
  Forall finite_or_na l -> isna (Num.sum l) = false.
Proof.
  intro H. destruct (sum_finite H) as [s [Hs _]]. rewrite Hs. reflexivity.
Qed.

Lemma qsum_nonneg (l : list value) :
  Forall count_or_na l -> (0 <= qsum l)%Q.
Proof.
  induction 1 as [|v l Hv _ IH]; simpl.
  - apply Qle_refl.
  - destruct v; simpl in Hv; auto.
    rewrite <- (Qplus_0_l 0). apply Qplus_le_compat; assumption.
Qed.

(** Non-negative entries that add up to zero are all zero. *)
Lemma qsum_zero (l : list value) :
  Forall count_or_na l -> (qsum l == 0)%Q ->
  Forall (fun v => equiv v (Fin 0) \/ v = NaN) l.
Proof.
  induction 1 as [|v l Hv Hl IH]; intro Hz; constructor.
  - destruct v; simpl in *; auto; try contradiction.
    left. pose proof (qsum_nonneg Hl) as Hn.
    apply Qle_antisym; [|exact Hv].
    rewrite <- Hz. rewrite <- (Qplus_0_r q) at 1.
    apply Qplus_le_compat; [apply Qle_refl | exact Hn].
  - apply IH. destruct v; simpl in *; auto; try contradiction.
    pose proof (qsum_nonneg Hl) as Hn.
    apply Qle_antisym; [|exact Hn].
    rewrite <- Hz. rewrite <- (Qplus_0_l (qsum l)) at 1.
    apply Qplus_le_compat; [exact Hv | apply Qle_refl].
Qed.

End NumFacts.

Import NumFacts.

(** ** The Normalizer *)

Section NormalizeFacts.
Variable T : Type.

Lemma combine_map_self (A B : Type) (f : A -> B) (l : list A) :
  combine l (map f l) = map (fun x => (x, f x)) l.
Proof. induction l; simpl; congruence. Qed.

Lemma normalize_rows (df : frame T) :
  rows (normalize df) = map (@normalize_row T) (rows df).
Proof.
  unfold normalize, div_axis0, sum_axis1. simpl.
  rewrite combine_map_self, map_map. reflexivity.
Qed.

Lemma normalize_columns (df : frame T) :
  columns (normalize df) = columns df.
Proof. reflexivity. Qed.

(** A row of counts whose sum is zero becomes all NaN. *)
Lemma zero_sum_all_na (c : list value) :
  Forall count_or_na c -> equiv (Num.sum c) (Fin 0) ->
  Forall (fun v => v = NaN) (map (fun v => Num.div v (Num.sum c)) c).
Proof.
  intros Hc Hz.
  assert (Hf : Forall finite_or_na c).
  { eapply Forall_impl; [|exact Hc]. intros a. apply count_finite. }
  destruct (sum_finite Hf) as [s [Hs Hq]].
  rewrite Hs in *. simpl in Hz.
  assert (Hq0 : (qsum c == 0)%Q) by (rewrite <- Hq; exact Hz).
  pose proof (qsum_zero Hc Hq0) as Hall.
  apply Forall_map. eapply Forall_impl; [|exact Hall].
  intros v [Hv | Hv].
  - destruct v; simpl in Hv; try contradiction. simpl.
    apply Qeq_bool_iff in Hz. apply Qeq_bool_iff in Hv.
    rewrite Hz, Hv. reflexivity.
  - subst v. reflexivity.
Qed.

(** Dividing by a sum that is 1 changes no number. *)
Lemma div_by_one (v : value) (s : Q) :
  (s == 1)%Q -> equiv (Num.div v (Fin s)) v.
Proof.
  intro Hs.
  assert (E0 : Qeq_bool s 0 = false).
  { apply Qeq_bool_false. rewrite Hs. discriminate. }
  assert (L0 : Qlt_bool s 0 = false).
  { destruct (Qlt_bool s 0) eqn:E; [|reflexivity].
    apply Qlt_bool_iff in E. rewrite Hs in E. discriminate. }
  destruct v; unfold Num.div, equiv; rewrite ?E0, ?L0; auto.
  rewrite Qred_correct, Hs. unfold Qdiv.
  change (/ 1)%Q with 1%Q. apply Qmult_1_r.
Qed.

Lemma unit_sum_row (c : list value) (d : value) :
  equiv d (Fin 1) ->
  Forall2 equiv (map (fun v => Num.div v d) c) c.
Proof.
  intro Hd. destruct d; simpl in Hd; try contradiction.
  induction c as [|v c IH]; simpl; constructor; auto.
  apply div_by_one. exact Hd.
Qed.

Lemma qsum_div (c : list value) (s : Q) :
  ~ (s == 0)%Q -> Forall finite_or_na c ->
  Forall finite_or_na (map (fun v => Num.div v (Fin s)) c) /\
  (qsum (map (fun v => Num.div v (Fin s)) c) == qsum c / s)%Q.
Proof.
  intros Hs Hc.
  assert (E0 : Qeq_bool s 0 = false) by (apply Qeq_bool_false; exact Hs).
  induction Hc as [|v c Hv _ [IH1 IH2]].
  - split; [constructor | simpl; field; exact Hs].
  - destruct v; simpl in Hv; try contradiction;
      cbn [map Num.div qsum]; rewrite ?E0.
    + split; [constructor; simpl; auto|].
      cbn [qsum]. rewrite Qred_correct, IH2. field. exact Hs.
    + split; [constructor; simpl; auto | exact IH2].
Qed.

(** After normalisation a row with a finite non-zero sum adds up to 1. *)
Lemma normalized_sum (c : list value) (s : Q) :
  Num.sum c = Fin s -> ~ (s == 0)%Q ->
  equiv (Num.sum (map (fun v => Num.div v (Num.sum c)) c)) (Fin 1).
Proof.
  intros Hsum Hs. pose proof (sum_Fin_inv _ Hsum) as Hf.
  destruct (sum_finite Hf) as [s0 [Hs0 Hq0]].
  rewrite Hsum in Hs0. injection Hs0 as <-.
  rewrite Hsum. destruct (qsum_div Hs Hf) as [Hf' Hq'].
  destruct (sum_finite Hf') as [s' [Hs' Hq'']].
  rewrite Hs'. simpl. rewrite Hq'', Hq', <- Hq0. field. exact Hs.
Qed.
End NormalizeFacts.

Lemma normalize_unit_rows (T : Type) (l : list (row T)) :
  (forall r, In r l -> equiv (Num.sum (cells r)) (Fin 1)) ->
  Forall2 (@row_equiv T) (map (@normalize_row T) l) l.
Proof.
  induction l as [|r l IH]; intro H; simpl; constructor.
  - repeat split; simpl; auto.
    apply unit_sum_row. apply H. left. reflexivity.
  - apply IH. intros r' Hr'. apply H. right. exact Hr'.
Qed.

(** C3 — Normalizer postcondition.  [normalize] keeps the columns, the
    rows and their keys; in every row each output cell is the input cell
    divided by the sum of that row over all columns; a row of counts
    (non-negative or null cells, the data model of the genre columns)
    whose sum is zero comes out as NaN in every column, as a value of the
    returned table ([normalize] returns a table, it has no exception to
    raise).  Concretely the row (A=2, B=2, C=0) becomes (0.5, 0.5, 0.0)
    and the all-zero row becomes all NaN. *)
Theorem normalize_postcondition (T : Type) (df : frame T) :
  columns (normalize df) = columns df /\
  length (rows (normalize df)) = length (rows df) /\
  (forall i r, nth_error (rows df) i = Some r ->
     exists r',
       nth_error (rows (normalize df)) i = Some r' /\
       Year r' = Year r /\ Season r' = Season r /\
       length (cells r') = length (cells r) /\
       (forall j v, nth_error (cells r) j = Some v ->
          nth_error (cells r') j = Some (Num.div v (Num.sum (cells r)))) /\
       (Forall count_or_na (cells r) ->
        equiv (Num.sum (cells r)) (Fin 0) ->
        Forall (fun v => v = NaN) (cells r'))) /\
  normalize counts_sample =
    mkFrame ["A"; "B"; "C"]
      [mkRow 2020 fall [Fin (1 # 2); Fin (1 # 2); Fin 0];
       mkRow 2021 winter [NaN; NaN; NaN]].
Proof.
  split; [reflexivity|].
  split; [rewrite normalize_rows; apply length_map|].
  split; [|reflexivity].
  intros i r Hi. exists (normalize_row r).
  split; [rewrite normalize_rows; apply map_nth_error; exact Hi|].
  split; [reflexivity|]. split; [reflexivity|].
  split; [apply length_map|].
  split.
  - intros j v Hj. simpl.
    apply (map_nth_error (fun v => Num.div v (Num.sum (cells r)))).
    exact Hj.
  - intros Hc Hz. simpl. apply zero_sum_all_na; assumption.
Qed.

Lemma normalize_postcondition_witness :
  exists r',
    nth_error (rows (normalize counts_sample)) 1 = Some r' /\
    Forall (fun v => v = NaN) (cells r').
Proof.
  destruct (normalize_postcondition counts_sample) as (_ & _ & H & _).
  destruct (H 1%nat (mkRow 2021 winter [Fin 0; Fin 0; Fin 0]) eq_refl)
    as (r' & Hn & _ & _ & _ & _ & Hz).
  exists r'. split; [exact Hn|]. apply Hz.
  - repeat constructor; simpl; apply Qle_refl.
  - simpl. reflexivity.
Defined.

(** The sign hypothesis of C3 cannot be dropped: floats divide a non-zero
    value by zero to an infinity. *)
Example normalize_mixed_signs :
  normalize (mkFrame ["A"; "B"] [mkRow 2020 fall [Fin 1; Fin (-1)]]) =
  mkFrame ["A"; "B"] [mkRow 2020 fall [PInf; NInf]].
Proof. reflexivity. Qed.

(** C9 — Normalizer idempotence.  On a table whose rows each sum to 1,
    [normalize] returns the same numbers under the same keys; hence, on
    a table whose rows each have a finite non-zero sum, normalising twice
    gives the same table as normalising once.  Numbers are compared as
    exact rationals, which is what "within floating-point tolerance"
    becomes once rounding is left out of the model. *)
Theorem normalize_idempotent (T : Type) (df : frame T) :
  ((forall r, In r (rows df) -> equiv (Num.sum (cells r)) (Fin 1)) ->
   frame_equiv (normalize df) df) /\
  ((forall r, In r (rows df) ->
      exists s, Num.sum (cells r) = Fin s /\ ~ (s == 0)%Q) ->
   frame_equiv (normalize (normalize df)) (normalize df)).
Proof.
  assert (P1 : forall d : frame T,
             (forall r, In r (rows d) -> equiv (Num.sum (cells r)) (Fin 1)) ->
             frame_equiv (normalize d) d).
  { intros d H. split; [reflexivity|].
    rewrite normalize_rows. apply normalize_unit_rows. exact H. }
  split; [apply P1|].
  intro H. apply P1. intros r' Hr'.
  rewrite normalize_rows in Hr'. apply in_map_iff in Hr'.
  destruct Hr' as [r [<- Hr]].
  destruct (H r Hr) as [s [Hs Hnz]].
  simpl. eapply normalized_sum; eassumption.
Qed.

Lemma normalize_idempotent_witness :
  frame_equiv (normalize proportions_sample) proportions_sample /\
  frame_equiv (normalize (normalize (mkFrame ["A"; "B"]
                                       [mkRow 2020 fall [Fin 1; Fin 3]])))
    (normalize (mkFrame ["A"; "B"] [mkRow 2020 fall [Fin 1; Fin 3]])).
Proof.
  split.
  - apply (proj1 (normalize_idempotent proportions_sample)).
    intros r [<- | [<- | []]]; simpl; reflexivity.
  - apply (proj2 (normalize_idempotent
                    (mkFrame ["A"; "B"] [mkRow 2020 fall [Fin 1; Fin 3]]))).
    intros r [<- | []]. exists 4%Q. split; [reflexivity | discriminate].
Defined.

(** ** Masks, labels and [drop_if] *)

Lemma mem_In (c : string) (l : list string) : mem c l = true <-> In c l.
Proof.
  unfold mem. rewrite existsb_exists. split.
  - intros [x [Hx E]]. apply String.eqb_eq in E. subst x. exact Hx.
  - intro H. exists c. split; [exact H | apply String.eqb_refl].
Qed.

Lemma mem_false (c : string) (l : list string) : mem c l = false <-> ~ In c l.
Proof.
  rewrite <- mem_In. destruct (mem c l); split; intro H; congruence.
Qed.

Lemma keep_mask_In (A : Type) (mask : list bool) (l : list A) (x : A) :
  In x (keep_mask mask l) -> In x l.
Proof.
  revert l. induction mask as [|b m IH]; intros [|y l]; simpl; auto;
    try contradiction.
  destruct b; simpl; intros H.
  - destruct H as [H | H]; [left; exact H | right; eapply IH; exact H].
  - right. eapply IH. exact H.
Qed.

Lemma keep_mask_map (A : Type) (p : A -> bool) (l : list A) :
  keep_mask (map p l) l = filter p l.
Proof.
  induction l as [|x l IH]; simpl; [reflexivity|].
  destruct (p x); rewrite IH; reflexivity.
Qed.

(** Under unique labels, the label at position [j] is picked by a mask
    exactly when the mask is set at [j]. *)
Lemma keep_mask_nodup (mask : list bool) (cols : list string) (j : nat)
    (c : string) :
  NoDup cols -> nth_error cols j = Some c ->
  length mask = length cols ->
  (In c (keep_mask mask cols) <-> nth_error mask j = Some true).
Proof.
  intros Hnd. revert mask j.
  induction Hnd as [|x t Hx Hnd IH]; intros mask j Hj Hlen.
  - destruct j; discriminate.
  - destruct mask as [|b m]; [discriminate|]. simpl in Hlen.
    destruct j as [|j]; simpl in Hj.
    + injection Hj as ->. simpl. destruct b; simpl.
      * split; auto.
      * split; [|discriminate].
        intro H. apply keep_mask_In in H. contradiction.
    + assert (Hne : x <> c).
      { intros ->. apply Hx. eapply nth_error_In. exact Hj. }
      simpl. rewrite <- (IH m j Hj) by lia.
      destruct b; simpl; [|reflexivity].
      split; [intros [H | H]; [contradiction | exact H] | auto].
Qed.

Lemma find_none_all (A : Type) (p : A -> bool) (l : list A) :
  (forall x, In x l -> p x = false) -> find p l = None.
Proof.
  induction l as [|x l IH]; intro H; simpl; [reflexivity|].
  rewrite (H x (or_introl eq_refl)). apply IH.
  intros y Hy. apply H. right. exact Hy.
Qed.

Lemma keep_mask_length (A B : Type) (p : A -> bool) (l : list A)
    (l' : list B) :
  length l' = length l ->
  length (keep_mask (map p l) l') = length (filter p l).
Proof.
  revert l'. induction l as [|x l IH]; intros [|y l'] H; simpl in *;
    try discriminate; [reflexivity|].
  destruct (p x); simpl; rewrite IH by lia; reflexivity.
Qed.

Lemma get_loc_none (c : string) (cols : list string) :
  get_loc c cols = None <-> ~ In c cols.
Proof.
  induction cols as [|x t IH]; simpl.
  - split; auto.
  - destruct (String.eqb c x) eqn:E.
    + apply String.eqb_eq in E. subst x.
      split; [discriminate | intro H; exfalso; apply H; left; reflexivity].
    + apply String.eqb_neq in E.
      destruct (get_loc c t) eqn:G; simpl.
      * split; [discriminate|]. intro H. exfalso.
        assert (G' : Some n <> None) by discriminate.
        apply G'. apply IH. intro Hin. apply H. right. exact Hin.
      * split; [|reflexivity]. intros _ [H | H]; [congruence|].
        revert H. apply IH. reflexivity.
Qed.

Lemma get_loc_some (c : string) (cols : list string) :
  In c cols -> exists j, get_loc c cols = Some j.
Proof.
  intro H. destruct (get_loc c cols) eqn:G; [eauto|].
  apply get_loc_none in G. contradiction.
Qed.

Lemma get_loc_nth (c : string) (cols : list string) (j : nat) :
  get_loc c cols = Some j -> nth_error cols j = Some c.
Proof.
  revert j. induction cols as [|x t IH]; intros j; simpl; [discriminate|].
  destruct (String.eqb c x) eqn:E.
  - apply String.eqb_eq in E. subst x. intro H. injection H as <-. reflexivity.
  - destruct (get_loc c t); simpl; [|discriminate].
    intro H. injection H as <-. simpl. apply IH. reflexivity.
Qed.

Lemma get_loc_nodup (c : string) (cols : list string) (j : nat) :
  NoDup cols -> nth_error cols j = Some c -> get_loc c cols = Some j.
Proof.
  intros Hnd. revert j. induction Hnd as [|x t Hx _ IH]; intros j Hj.
  - destruct j; discriminate.
  - simpl. destruct j as [|j]; simpl in Hj.
    + injection Hj as ->. rewrite String.eqb_refl. reflexivity.
    + assert (E : String.eqb c x = false).
      { apply String.eqb_neq. intros ->. apply Hx.
        eapply nth_error_In. exact Hj. }
      rewrite E, (IH j Hj). reflexivity.
Qed.

Lemma keep_mask_nil (A : Type) (mask : list bool) :
  keep_mask mask (@nil A) = [].
Proof. destruct mask; reflexivity. Qed.

Lemma nth_nil_na (j : nat) : nth j (@nil value) NaN = NaN.
Proof. destruct j; reflexivity. Qed.

(** Reading a kept column after the other columns went gives the cell it
    had before. *)
Lemma keep_mask_cell (p : string -> bool) (cols : list string)
    (vs : list value) (c : string) :
  p c = true ->
  option_map (fun j => nth j (keep_mask (map p cols) vs) NaN)
    (get_loc c (filter p cols)) =
  option_map (fun j => nth j vs NaN) (get_loc c cols).
Proof.
  intro Hc. revert vs. induction cols as [|x t IH]; intro vs.
  - reflexivity.
  - destruct vs as [|v vs].
    + rewrite keep_mask_nil.
      destruct (get_loc c (filter p (x :: t))) eqn:G1,
               (get_loc c (x :: t)) eqn:G2; cbn [option_map];
        rewrite ?nth_nil_na; try reflexivity; exfalso.
      * apply get_loc_none in G2. apply G2.
        assert (Hin : In c (filter p (x :: t))).
        { destruct (in_dec string_dec c (filter p (x :: t))) as [H | H];
            [exact H|]. apply get_loc_none in H. congruence. }
        apply filter_In in Hin. apply Hin.
      * apply get_loc_none in G1. apply G1. apply filter_In.
        split; [|exact Hc].
        destruct (in_dec string_dec c (x :: t)) as [H | H]; [exact H|].
        apply get_loc_none in H. congruence.
    + specialize (IH vs). simpl. destruct (p x) eqn:Hx; simpl.
      * destruct (String.eqb c x); [reflexivity|].
        destruct (get_loc c (filter p t)), (get_loc c t); simpl in *;
          auto; discriminate.
      * assert (E : String.eqb c x = false).
        { apply String.eqb_neq. intros ->. congruence. }
        rewrite E.
        destruct (get_loc c (filter p t)), (get_loc c t); simpl in *;
          auto; discriminate.
Qed.

Section DropIfFacts.
Variable T : Type.

Lemma drop_columns_ok (labels : list string) (df : frame T) :
  (forall c, In c labels -> In c (columns df)) ->
  drop_columns labels df =
  Ok (mkFrame (filter (fun c => negb (mem c labels)) (columns df))
        (map (fun r => mkRow (Year r) (Season r)
                         (keep_mask
                            (map (fun c => negb (mem c labels)) (columns df))
                            (cells r)))
           (rows df))).
Proof.
  intro H. unfold drop_columns. rewrite find_none_all.
  - rewrite keep_mask_map. reflexivity.
  - intros c Hc. apply negb_false_iff. apply mem_In. apply H. exact Hc.
Qed.

Lemma drop_if_ok (condition : frame T -> list bool) (df : frame T) :
  length (condition df) = length (columns df) ->
  drop_if condition df =
  let labels := keep_mask (condition df) (columns df) in
  Ok (mkFrame (filter (fun c => negb (mem c labels)) (columns df))
        (map (fun r => mkRow (Year r) (Season r)
                         (keep_mask
                            (map (fun c => negb (mem c labels)) (columns df))
                            (cells r)))
           (rows df))).
Proof.
  intro H. unfold drop_if. rewrite H, Nat.eqb_refl.
  apply drop_columns_ok. intros c Hc. eapply keep_mask_In. exact Hc.
Qed.

Lemma drop_if_wrong_mask (condition : frame T -> list bool) (df : frame T) :
  length (condition df) <> length (columns df) ->
  drop_if condition df = Raise IndexError.
Proof.
  intro H. unfold drop_if. apply Nat.eqb_neq in H. rewrite H. reflexivity.
Qed.
End DropIfFacts.

(** C10 — Frame property of [drop_if].  For every table and every
    condition that answers with one boolean per column, [drop_if] returns
    a table with the same rows in the same order, each under its own key;
    its columns are the input columns whose label was not selected by the
    condition, and under every retained label each row reads the very
    cell it read in the input.  Whole columns go and nothing else
    changes. *)
Theorem drop_if_frame (T : Type) (condition : frame T -> list bool)
    (df : frame T) :
  length (condition df) = length (columns df) ->
  exists out,
    drop_if condition df = Ok out /\
    length (rows out) = length (rows df) /\
    map (@Year T) (rows out) = map (@Year T) (rows df) /\
    map (@Season T) (rows out) = map (@Season T) (rows df) /\
    (forall c,
       In c (columns out) <->
       In c (columns df) /\ ~ In c (keep_mask (condition df) (columns df))) /\
    (forall i r r' c,
       nth_error (rows df) i = Some r ->
       nth_error (rows out) i = Some r' ->
       In c (columns out) ->
       get_cell out c r' = get_cell df c r /\ get_cell df c r <> None).
Proof.
  intro Hlen. rewrite (drop_if_ok _ _ Hlen). cbv zeta.
  eexists. split; [reflexivity|]. cbn [rows columns].
  split; [apply length_map|].
  split; [rewrite map_map; reflexivity|].
  split; [rewrite map_map; reflexivity|].
  split.
  - intro c. rewrite filter_In, negb_true_iff, mem_false. reflexivity.
  - intros i r r' c Hr Hr' Hc.
    rewrite nth_error_map, Hr in Hr'. simpl in Hr'. injection Hr' as <-.
    apply filter_In in Hc. destruct Hc as [Hin Hp].
    split.
    + unfold get_cell, cell. cbn [columns cells].
      apply (keep_mask_cell
               (fun c => negb (mem c (keep_mask (condition df) (columns df))))).
      exact Hp.
    + unfold get_cell. destruct (get_loc_some _ _ Hin) as [j Hj].
      rewrite Hj. discriminate.
Qed.

Lemma drop_if_frame_witness :
  exists out,
    drop_if (fun _ => [false; true; false]) counts_sample = Ok out /\
    columns out = ["A"; "C"] /\ length (rows out) = 2%nat.
Proof.
  destruct (drop_if_frame (fun _ => [false; true; false]) counts_sample
              eq_refl) as (out & Hout & Hlen & _).
  exists out. split; [exact Hout|]. split; [|exact Hlen].
  cbv in Hout. injection Hout as <-. reflexivity.
Defined.

(** ** The Consistency Filter *)

Lemma nth_error_map_seq (A : Type) (f : nat -> A) (n j : nat) :
  (j < n)%nat -> nth_error (map f (seq 0 n)) j = Some (f j).
Proof.
  intro H. rewrite nth_error_map.
  assert (E : nth_error (seq 0 n) j = Some j).
  { rewrite (nth_error_nth' _ 0%nat) by (rewrite length_seq; exact H).
    rewrite seq_nth by exact H. reflexivity. }
  rewrite E. reflexivity.
Qed.

Section ConsistencyFacts.
Variable T : Type.
Variable min_fraction : Q.

Lemma requirement_length (count : nat) (df : frame T) :
  length (not_minimum_requirement_for min_fraction count df) =
  length (columns df).
Proof.
  unfold not_minimum_requirement_for, count_ge.
  rewrite !length_map, length_seq. reflexivity.
Qed.

Lemma requirement_nth (count : nat) (df : frame T) (j : nat) :
  (j < length (columns df))%nat ->
  nth_error (not_minimum_requirement_for min_fraction count df) j =
  Some (Qlt_bool (inject_Z (Z.of_nat (appearances j df)))
          (inject_Z (Z.of_nat count) * min_fraction)).
Proof.
  intro H. unfold not_minimum_requirement_for, count_ge.
  rewrite map_map. rewrite nth_error_map_seq by exact H. reflexivity.
Qed.

(** The filter on its own: the column at position [j] stays exactly when
    its number of appearances reaches [count * min_fraction]. *)
Lemma retained_iff (count : nat) (recent : frame T) (j : nat) (c : string) :
  NoDup (columns recent) -> nth_error (columns recent) j = Some c ->
  exists filtered,
    drop_if (not_minimum_requirement_for min_fraction count) recent
      = Ok filtered /\
    length (rows filtered) = length (rows recent) /\
    (In c (columns filtered) <->
     (inject_Z (Z.of_nat count) * min_fraction
      <= inject_Z (Z.of_nat (appearances j recent)))%Q) /\
    (wf recent -> wf filtered).
Proof.
  intros Hnd Hj.
  pose proof (requirement_length count recent) as Hlen.
  rewrite (drop_if_ok _ _ Hlen). cbv zeta.
  eexists. split; [reflexivity|]. cbn [rows columns].
  split; [apply length_map|]. split.
  - rewrite filter_In, negb_true_iff, mem_false.
    rewrite (@keep_mask_nodup _ _ _ _ Hnd Hj Hlen).
    assert (Hlt : (j < length (columns recent))%nat).
    { apply nth_error_Some. congruence. }
    rewrite (requirement_nth count recent Hlt).
    unfold Qlt_bool.
    destruct (Qle_bool (inject_Z (Z.of_nat count) * min_fraction)
                (inject_Z (Z.of_nat (appearances j recent)))) eqn:E.
    + apply Qle_bool_iff in E. split; [intros _; exact E|].
      intros _. split; [eapply nth_error_In; exact Hj | discriminate].
    + split.
      * intros [_ H]. exfalso. apply H. reflexivity.
      * intro H. apply Qle_bool_iff in H. congruence.
  - intros Hwf r Hr. cbn [rows columns] in *.
    apply in_map_iff in Hr. destruct Hr as [r0 [<- Hr0]]. cbn [cells].
    rewrite <- keep_mask_map, !keep_mask_length; auto.
Qed.
End ConsistencyFacts.

Lemma tail_all (T : Type) (df : frame T) (j : nat) :
  appearances j (tail (len df) df) = appearances j df.
Proof.
  unfold appearances, tail. simpl. rewrite Nat.sub_diag. reflexivity.
Qed.

Lemma skipn_In (A : Type) (n : nat) (l : list A) (x : A) :
  In x (skipn n l) -> In x l.
Proof.
  intro H. rewrite <- (firstn_skipn n l). apply in_or_app. right. exact H.
Qed.

Lemma threshold_general (T : Type) (window : nat) (min_fraction : Q)
    (df : frame T) (j : nat) (c : string) :
  NoDup (columns df) -> nth_error (columns df) j = Some c ->
  let count := Nat.min window (len df) in
  let recent := tail count df in
  exists filtered,
    drop_if (not_minimum_requirement_for min_fraction count) recent
      = Ok filtered /\
    plot_trend_for window min_fraction df = Ok (normalize filtered) /\
    rows recent = skipn (len df - count) (rows df) /\
    length (rows filtered) = count /\
    (In c (columns (normalize filtered)) <->
     (inject_Z (Z.of_nat count) * min_fraction
      <= inject_Z (Z.of_nat (appearances j recent)))%Q) /\
    (wf df -> wf filtered).
Proof.
  intros Hnd Hj count recent.
  destruct (@retained_iff T min_fraction count recent j c Hnd Hj)
    as (filtered & Hdrop & Hrows & Hiff & Hwf).
  exists filtered. split; [exact Hdrop|].
  split; [unfold plot_trend_for; fold count; fold recent;
          rewrite Hdrop; reflexivity|].
  split; [reflexivity|].
  split.
  - rewrite Hrows. subst recent. unfold tail. cbn [rows].
    rewrite length_skipn. unfold len. subst count. unfold len. lia.
  - split; [exact Hiff|].
    intro H. apply Hwf. intros r Hr. apply H.
    subst recent. unfold tail in Hr. cbn [rows] in Hr.
    eapply skipn_In. exact Hr.
Qed.

(** C2 — Consistency Filter threshold.  With [count = min(window,
    len(df))] and [recent] the last [count] rows of the table, the column
    at a position [j] (labels being unique) is kept by [plot_trend]'s
    filter if and only if the number of rows of [recent] in which its cell
    is at least 1 is at least [min_fraction * count]; the table keeps its
    [count] rows and, being rectangular before, is rectangular after, so
    a dropped column is gone from every row and not set to zero.  In
    particular with a window of 10 and the fraction 0.4 a genre present in
    exactly 4 of the 10 recent partitions is kept and one present in
    exactly 3 is dropped, and the same holds for the source's own
    constants (20 seasons, 0.4) on a table of 10 partitions. *)
Theorem consistency_threshold :
  (forall (T : Type) (window : nat) (min_fraction : Q) (df : frame T)
          (j : nat) (c : string),
     NoDup (columns df) -> nth_error (columns df) j = Some c ->
     let count := Nat.min window (len df) in
     let recent := tail count df in
     exists filtered,
       drop_if (not_minimum_requirement_for min_fraction count) recent
         = Ok filtered /\
       plot_trend_for window min_fraction df = Ok (normalize filtered) /\
       rows recent = skipn (len df - count) (rows df) /\
       length (rows filtered) = count /\
       (In c (columns (normalize filtered)) <->
        (inject_Z (Z.of_nat count) * min_fraction
         <= inject_Z (Z.of_nat (appearances j recent)))%Q) /\
       (wf df -> wf filtered)) /\
  (forall (T : Type) (df : frame T) (j : nat) (c : string),
     NoDup (columns df) -> nth_error (columns df) j = Some c ->
     (10 <= len df)%nat ->
     exists res,
       plot_trend_for 10 (4 # 10) df = Ok res /\
       (appearances j (tail 10 df) = 4%nat -> In c (columns res)) /\
       (appearances j (tail 10 df) = 3%nat -> ~ In c (columns res))) /\
  (forall (T : Type) (df : frame T) (j : nat) (c : string),
     NoDup (columns df) -> nth_error (columns df) j = Some c ->
     len df = 10%nat ->
     exists res,
       plot_trend df = Ok res /\
       (appearances j df = 4%nat -> In c (columns res)) /\
       (appearances j df = 3%nat -> ~ In c (columns res))).
Proof.
  split; [exact threshold_general|]. split.
  - intros T df j c Hnd Hj Hlen.
    destruct (@threshold_general T 10 (4 # 10) df j c Hnd Hj)
      as (filtered & _ & Hplot & _ & _ & Hiff & _).
    rewrite (Nat.min_l 10 (len df) Hlen) in Hiff.
    exists (normalize filtered). split; [exact Hplot|]. split.
    + intro H4. apply Hiff. rewrite H4. vm_compute. discriminate.
    + intros H3 Hin. apply Hiff in Hin. rewrite H3 in Hin.
      vm_compute in Hin. apply Hin. reflexivity.
  - intros T df j c Hnd Hj Hlen.
    destruct (@threshold_general T 20 (4 # 10) df j c Hnd Hj)
      as (filtered & _ & Hplot & _ & _ & Hiff & _).
    assert (Hmin : Nat.min 20 (len df) = len df) by (rewrite Hlen; reflexivity).
    rewrite Hmin, tail_all in Hiff. rewrite Hlen in Hiff.
    exists (normalize filtered). split; [exact Hplot|]. split.
    + intro H4. apply Hiff. rewrite H4. vm_compute. discriminate.
    + intros H3 Hin. apply Hiff in Hin. rewrite H3 in Hin.
      vm_compute in Hin. apply Hin. reflexivity.
Qed.

Lemma consistency_threshold_witness :
  exists res,
    plot_trend ten_seasons = Ok res /\
    In "A" (columns res) /\ ~ In "B" (columns res).
Proof.
  assert (Hnd : NoDup (columns ten_seasons)).
  { repeat constructor; simpl; intuition discriminate. }
  destruct (proj2 (proj2 consistency_threshold) season ten_seasons
              0%nat "A" Hnd eq_refl eq_refl) as (res & Hres & HA & _).
  destruct (proj2 (proj2 consistency_threshold) season ten_seasons
              1%nat "B" Hnd eq_refl eq_refl) as (res' & Hres' & _ & HB).
  rewrite Hres in Hres'. injection Hres' as <-.
  exists res. split; [exact Hres|].
  split; [apply HA; reflexivity | apply HB; reflexivity].
Defined.

(** ** Sorted unique levels *)

Section SortUniqFacts.
Variable A : Type.
Variable lt_b eq_b : A -> A -> bool.
Hypothesis eq_b_true : forall x y, eq_b x y = true -> x = y.

Lemma insert_uniq_In (x y : A) (l : list A) :
  In y (insert_uniq lt_b eq_b x l) <-> y = x \/ In y l.
Proof.
  induction l as [|a l IH]; simpl.
  - intuition.
  - destruct (lt_b x a).
    + simpl. intuition.
    + destruct (eq_b x a) eqn:E.
      * apply eq_b_true in E. subst a. simpl. intuition.
      * simpl. rewrite IH. intuition.
Qed.

Lemma sort_uniq_In (y : A) (l : list A) :
  In y (sort_uniq lt_b eq_b l) <-> In y l.
Proof.
  induction l as [|a l IH]; simpl; [reflexivity|].
  rewrite insert_uniq_In, IH. intuition.
Qed.
End SortUniqFacts.

Lemma insert_uniq_sorted (x : Z) (l : list Z) :
  StronglySorted Z.lt l ->
  StronglySorted Z.lt (insert_uniq Z.ltb Z.eqb x l).
Proof.
  induction 1 as [|a l Hl IH Ha]; simpl.
  - repeat constructor.
  - destruct (Z.ltb_spec x a) as [Hlt | Hge].
    + constructor; [constructor; assumption|].
      constructor; [exact Hlt|].
      eapply Forall_impl; [|exact Ha]. intros; lia.
    + destruct (Z.eqb_spec x a) as [-> | Hne].
      * constructor; assumption.
      * constructor; [exact IH|].
        apply Forall_forall. intros y Hy.
        apply (insert_uniq_In Z.ltb Z.eqb) in Hy;
          [|intros ? ?; apply Z.eqb_eq].
        destruct Hy as [-> | Hy]; [lia|].
        rewrite Forall_forall in Ha. apply Ha. exact Hy.
Qed.

Lemma year_levels_sorted (rs : list crow) :
  StronglySorted Z.lt (year_levels rs).
Proof.
  unfold year_levels, sort_uniq.
  induction (map (@Year _) rs) as [|y l IH]; simpl.
  - constructor.
  - apply insert_uniq_sorted. exact IH.
Qed.

Lemma year_levels_In (rs : list crow) (y : Z) :
  In y (year_levels rs) <-> exists r, In r rs /\ Year r = y.
Proof.
  unfold year_levels.
  rewrite sort_uniq_In by (intros ? ?; apply Z.eqb_eq).
  rewrite in_map_iff. split; intros [r [H1 H2]]; exists r; auto.
Qed.

(** ** The product of the key levels *)

Lemma StronglySorted_app (A : Type) (R : A -> A -> Prop) (l1 l2 : list A) :
  StronglySorted R l1 -> StronglySorted R l2 ->
  (forall a b, In a l1 -> In b l2 -> R a b) ->
  StronglySorted R (l1 ++ l2).
Proof.
  induction 1 as [|a l1 Hl1 IH Ha]; intros H2 Hc; simpl; [exact H2|].
  constructor.
  - apply IH; [exact H2|]. intros x y Hx Hy. apply Hc; [right|]; assumption.
  - apply Forall_app. split; [exact Ha|].
    apply Forall_forall. intros y Hy. apply Hc; [left; reflexivity | exact Hy].
Qed.

Lemma StronglySorted_filter (A : Type) (R : A -> A -> Prop) (p : A -> bool)
    (l : list A) :
  StronglySorted R l -> StronglySorted R (filter p l).
Proof.
  induction 1 as [|a l Hl IH Ha]; simpl; [constructor|].
  destruct (p a); [|exact IH].
  constructor; [exact IH|].
  apply Forall_forall. intros y Hy. apply filter_In in Hy.
  rewrite Forall_forall in Ha. apply Ha. apply Hy.
Qed.

Lemma product_In (ys : list Z) (ss : list season) (k : key) :
  In k (product ys ss) <-> In (fst k) ys /\ In (snd k) ss.
Proof.
  unfold product. rewrite in_flat_map. split.
  - intros [y [Hy Hk]]. apply in_map_iff in Hk.
    destruct Hk as [s [<- Hs]]. simpl. auto.
  - intros [Hy Hs]. exists (fst k). split; [exact Hy|].
    apply in_map_iff. exists (snd k). split; [|exact Hs].
    destruct k; reflexivity.
Qed.

Lemma categories_all (s : season) : In s categories.
Proof. destruct s; simpl; auto. Qed.

Lemma product_sorted (ys : list Z) :
  StronglySorted Z.lt ys -> StronglySorted key_lt (product ys categories).
Proof.
  induction 1 as [|y ys Hys IH Hy]; [constructor|].
  change (product (y :: ys) categories)
    with (map (pair y) categories ++ product ys categories).
  apply (StronglySorted_app (R := key_lt)).
  - unfold categories. simpl.
    repeat constructor; right; simpl; split; try reflexivity; lia.
  - exact IH.
  - intros a b Ha Hb. apply in_map_iff in Ha. destruct Ha as [s [<- _]].
    apply product_In in Hb. destruct Hb as [Hb _].
    rewrite Forall_forall in Hy. left. simpl. apply Hy. exact Hb.
Qed.

Lemma key_lt_irrefl (k : key) : ~ key_lt k k.
Proof. unfold key_lt. lia. Qed.

Lemma season_eqb_eq (a b : season) : season_eqb a b = true <-> a = b.
Proof.
  unfold season_eqb. rewrite Z.eqb_eq.
  destruct a, b; simpl; split; intro H; try reflexivity; discriminate.
Qed.

Lemma has_key_iff (k : key) (r : crow) :
  has_key k r = true <-> Year r = fst k /\ Season r = Some (snd k).
Proof.
  unfold has_key. destruct (Season r) as [s|].
  - rewrite andb_true_iff, Z.eqb_eq, season_eqb_eq.
    split; intros [H1 H2]; split; congruence.
  - split; [discriminate | intros [_ H]; discriminate].
Qed.

(** ** Groups *)

Lemma group_keys_In (rs : list crow) (k : key) :
  In k (group_keys rs) <-> exists r, In r rs /\ has_key k r = true.
Proof.
  unfold group_keys. rewrite filter_In, existsb_exists. split.
  - intros [_ H]. exact H.
  - intros [r [Hr Hk]]. split; [|exists r; auto].
    apply product_In. split; [|apply categories_all].
    apply year_levels_In. exists r. split; [exact Hr|].
    apply has_key_iff in Hk. apply Hk.
Qed.

Lemma group_keys_sorted (rs : list crow) :
  StronglySorted key_lt (group_keys rs).
Proof.
  unfold group_keys. apply StronglySorted_filter.
  apply product_sorted. apply year_levels_sorted.
Qed.

Lemma get_group_In (k : key) (rs : list crow) (r : crow) :
  In r (get_group k rs) <-> In r rs /\ has_key k r = true.
Proof. unfold get_group. apply filter_In. Qed.

Lemma mapM_ok (A B : Type) (f : A -> result B) (g : A -> B) (l : list A) :
  (forall x, In x l -> f x = Ok (g x)) -> mapM f l = Ok (map g l).
Proof.
  induction l as [|a l IH]; intro H; simpl; [reflexivity|].
  rewrite (H a (or_introl eq_refl)). simpl.
  rewrite IH; [reflexivity|]. intros x Hx. apply H. right. exact Hx.
Qed.

Lemma mapM_raise (A B : Type) (e : exn) (l : list A) :
  l <> [] -> mapM (fun _ : A => @Raise B e) l = Raise e.
Proof. destruct l; [congruence | reflexivity]. Qed.

(** ** [nlargest] *)

Section SortDescFacts.
Variable A : Type.
Variable key : A -> value.

Lemma insert_desc_In (x y : A) (l : list A) :
  In y (insert_desc key x l) <-> y = x \/ In y l.
Proof.
  induction l as [|a l IH]; simpl.
  - intuition.
  - destruct (Num.leb (key a) (key x)); simpl; [intuition|].
    rewrite IH. intuition.
Qed.

Lemma sort_desc_In (y : A) (l : list A) :
  In y (sort_desc key l) <-> In y l.
Proof.
  induction l as [|a l IH]; simpl; [reflexivity|].
  rewrite insert_desc_In, IH. intuition.
Qed.

Lemma insert_desc_length (x : A) (l : list A) :
  length (insert_desc key x l) = S (length l).
Proof.
  induction l as [|a l IH]; simpl; [reflexivity|].
  destruct (Num.leb (key a) (key x)); simpl; [reflexivity|].
  rewrite IH. reflexivity.
Qed.

Lemma sort_desc_length (l : list A) :
  length (sort_desc key l) = length l.
Proof.
  induction l as [|a l IH]; simpl; [reflexivity|].
  rewrite insert_desc_length, IH. reflexivity.
Qed.
End SortDescFacts.

Lemma firstn_In (A : Type) (n : nat) (l : list A) (x : A) :
  In x (firstn n l) -> In x l.
Proof.
  intro H. rewrite <- (firstn_skipn n l). apply in_or_app. left. exact H.
Qed.

Section NlargestFacts.
Variable T : Type.

(** Only rows of the group are selected, and never one with a null
    score. *)
Lemma nlargest_subset (n : Z) (j : nat) (rs : list (row T)) (r : row T) :
  In r (series_nlargest_all n j rs) ->
  In r rs /\ notna (cell j r) = true.
Proof.
  unfold series_nlargest_all.
  destruct (n <=? 0); [intros []|].
  destruct (Z.of_nat (length rs) <=? n).
  - intro H. apply firstn_In in H. apply sort_desc_In in H.
    apply filter_In in H. exact H.
  - destruct (kth_largest _ _); [|intros []].
    intro H. apply sort_desc_In in H. apply filter_In in H.
    destruct H as [H _]. apply filter_In in H. exact H.
Qed.

Lemma nlargest_nonpositive (n : Z) (j : nat) (rs : list (row T)) :
  n <= 0 -> series_nlargest_all n j rs = [].
Proof.
  intro H. unfold series_nlargest_all.
  apply Z.leb_le in H. rewrite H. reflexivity.
Qed.

Lemma filter_all (A : Type) (p : A -> bool) (l : list A) :
  (forall x, In x l -> p x = true) -> filter p l = l.
Proof.
  induction l as [|a l IH]; intro H; simpl; [reflexivity|].
  rewrite (H a (or_introl eq_refl)), IH; [reflexivity|].
  intros x Hx. apply H. right. exact Hx.
Qed.

(** A group with at most [n] scored rows is taken whole. *)
Lemma nlargest_small_group (n : Z) (j : nat) (rs : list (row T))
    (r : row T) :
  1 <= n -> Z.of_nat (length rs) <= n ->
  (forall x, In x rs -> notna (cell j x) = true) ->
  In r rs -> In r (series_nlargest_all n j rs).
Proof.
  intros Hn Hlen Hna Hr. unfold series_nlargest_all.
  destruct (Z.leb_spec n 0) as [H0 | _]; [lia|].
  apply Z.leb_le in Hlen. rewrite Hlen. apply Z.leb_le in Hlen.
  rewrite (filter_all _ _ Hna).
  rewrite firstn_all2 by (rewrite sort_desc_length; lia).
  apply sort_desc_In. exact Hr.
Qed.

(** Every row whose score equals the [n]-th largest score of its group
    is selected. *)
Lemma nlargest_ties (n : Z) (j : nat) (rs : list (row T)) (r : row T)
    (kth : value) :
  1 <= n ->
  (forall x, In x rs -> notna (cell j x) = true) ->
  In r rs ->
  kth_largest (Z.to_nat n) (map (cell j) rs) = Some kth ->
  equiv (cell j r) kth ->
  In r (series_nlargest_all n j rs).
Proof.
  intros Hn Hna Hr Hk He.
  destruct (Z.leb_spec (Z.of_nat (length rs)) n) as [Hlen | Hlen].
  - apply nlargest_small_group; assumption.
  - unfold series_nlargest_all.
    destruct (Z.leb_spec n 0) as [H0 | _]; [lia|].
    destruct (Z.leb_spec (Z.of_nat (length rs)) n) as [H1 | _]; [lia|].
    rewrite (filter_all _ _ Hna).
    rewrite Nat.min_l by lia. rewrite Hk.
    apply sort_desc_In. apply filter_In. split; [exact Hr|].
    apply leb_equiv; [apply Hna; exact Hr | exact He].
Qed.
End NlargestFacts.

(** ** The order of scores and the rank of a row *)

Lemma leb_total (a b : value) :
  notna a = true -> notna b = true ->
  Num.leb a b = true \/ Num.leb b a = true.
Proof.
  destruct a, b; simpl; auto; try discriminate.
  intros _ _. destruct (Qle_bool q q0) eqn:E; [auto|]. right.
  apply Qle_bool_iff. apply Qlt_le_weak. apply Qnot_le_lt.
  intro H. apply Qle_bool_iff in H. congruence.
Qed.

Lemma leb_trans (a b c : value) :
  Num.leb a b = true -> Num.leb b c = true -> Num.leb a c = true.
Proof.
  destruct a, b, c; simpl; auto; try discriminate.
  intros H1 H2. apply Qle_bool_iff in H1. apply Qle_bool_iff in H2.
  apply Qle_bool_iff. eapply Qle_trans; eassumption.
Qed.

Lemma ltb_negb (a b : value) :
  notna a = true -> notna b = true -> Num.ltb a b = negb (Num.leb b a).
Proof. destruct a, b; simpl; auto; discriminate. Qed.

Lemma filter_none (A : Type) (p : A -> bool) (l : list A) :
  (forall x, In x l -> p x = false) -> filter p l = [].
Proof.
  induction l as [|a l IH]; intro H; simpl; [reflexivity|].
  rewrite (H a (or_introl eq_refl)). apply IH.
  intros x Hx. apply H. right. exact Hx.
Qed.

Section RankFacts.
Variable A : Type.
Variable key : A -> value.


Lemma insert_desc_sorted (x : A) (l : list A) :
  notna (key x) = true ->
  (forall y, In y l -> notna (key y) = true) ->
  StronglySorted (descending key) l -> StronglySorted (descending key) (insert_desc key x l).
Proof.
  intros Hx Hl Hs. induction Hs as [|a l Hs IH Ha]; simpl.
  - repeat constructor.
  - destruct (Num.leb (key a) (key x)) eqn:E.
    + constructor; [constructor; assumption|].
      constructor; [exact E|].
      eapply Forall_impl; [|exact Ha].
      intros y Hy. unfold descending in *. eapply leb_trans; eassumption.
    + constructor.
      * apply IH. intros y Hy. apply Hl. right. exact Hy.
      * apply Forall_forall. intros y Hy.
        apply insert_desc_In in Hy. destruct Hy as [-> | Hy].
        -- unfold descending.
           destruct (leb_total (key a) (key x)) as [H | H]; auto;
             [apply Hl; left; reflexivity | congruence].
        -- rewrite Forall_forall in Ha. apply Ha. exact Hy.
Qed.

Lemma sort_desc_sorted (l : list A) :
  (forall y, In y l -> notna (key y) = true) ->
  StronglySorted (descending key) (sort_desc key l).
Proof.
  induction l as [|a l IH]; intro H; simpl; [constructor|].
  apply insert_desc_sorted.
  - apply H. left. reflexivity.
  - intros y Hy. apply sort_desc_In in Hy. apply H. right. exact Hy.
  - apply IH. intros y Hy. apply H. right. exact Hy.
Qed.

Lemma insert_desc_count (p : A -> bool) (x : A) (l : list A) :
  length (filter p (insert_desc key x l)) = length (filter p (x :: l)).
Proof.
  induction l as [|a l IH]; [reflexivity|].
  simpl insert_desc. destruct (Num.leb (key a) (key x)); [reflexivity|].
  simpl in *. destruct (p a), (p x); simpl in *; lia.
Qed.

Lemma sort_desc_count (p : A -> bool) (l : list A) :
  length (filter p (sort_desc key l)) = length (filter p l).
Proof.
  induction l as [|a l IH]; [reflexivity|].
  simpl sort_desc. rewrite insert_desc_count. simpl.
  destruct (p a); simpl; rewrite IH; reflexivity.
Qed.

(** In a list sorted in descending order, a score reaches the element
    at position [m] exactly when at most [m] elements lie strictly
    above it. *)
Lemma sorted_rank (l : list A) (m : nat) (k : A) (v : value) :
  StronglySorted (descending key) l ->
  (forall y, In y l -> notna (key y) = true) ->
  notna v = true ->
  nth_error l m = Some k ->
  (Num.leb (key k) v = true <->
   (length (filter (fun x => Num.ltb v (key x)) l) <= m)%nat).
Proof.
  intros Hs. revert m. induction Hs as [|a l Hs IH Ha]; intros m Hl Hv Hm.
  - destruct m; discriminate.
  - assert (Hna : notna (key a) = true) by (apply Hl; left; reflexivity).
    assert (Hl' : forall y, In y l -> notna (key y) = true).
    { intros y Hy. apply Hl. right. exact Hy. }
    assert (Hbelow : Num.leb (key a) v = true ->
              length (filter (fun x => Num.ltb v (key x)) l) = 0%nat).
    { intro Hav. rewrite Forall_forall in Ha.
      assert (E : filter (fun x => Num.ltb v (key x)) l = []).
      { apply filter_none. intros y Hy.
        rewrite ltb_negb by auto. apply negb_false_iff.
        eapply leb_trans; [apply Ha; exact Hy | exact Hav]. }
      rewrite E. reflexivity. }
    simpl. rewrite (ltb_negb v (key a)) by auto.
    destruct (Num.leb (key a) v) eqn:Eav; simpl.
    + rewrite Hbelow by reflexivity. split; [lia|]. intros _.
      destruct m as [|m]; simpl in Hm.
      * injection Hm as <-. exact Eav.
      * rewrite Forall_forall in Ha.
        apply nth_error_In in Hm. eapply leb_trans; [|exact Eav].
        apply Ha. exact Hm.
    + destruct m as [|m]; simpl in Hm.
      * injection Hm as <-. rewrite Eav. split; [discriminate | lia].
      * rewrite (IH m Hl' Hv Hm). lia.
Qed.
End RankFacts.

Lemma filter_map_length (A B : Type) (f : A -> B) (q : B -> bool)
    (l : list A) :
  length (filter q (map f l)) = length (filter (fun x => q (f x)) l).
Proof.
  induction l as [|a l IH]; simpl; [reflexivity|].
  destruct (q (f a)); simpl; rewrite IH; reflexivity.
Qed.

Lemma filter_length_lt (A : Type) (p : A -> bool) (l : list A) (x : A) :
  In x l -> p x = false -> (length (filter p l) < length l)%nat.
Proof.
  induction l as [|a l IH]; intros Hx Hp; [destruct Hx|].
  pose proof (filter_length_le p l) as Hle. simpl.
  destruct Hx as [-> | Hx].
  - rewrite Hp. lia.
  - specialize (IH Hx Hp). destruct (p a); simpl; lia.
Qed.

Section NlargestRank.
Variable T : Type.

Lemma scores_rank (j : nat) (rs : list (row T)) (m : nat) (kth v : value) :
  (forall x, In x rs -> notna (cell j x) = true) ->
  notna v = true ->
  nth_error (sort_desc (fun s => s) (map (cell j) rs)) m = Some kth ->
  (Num.leb kth v = true <->
   (length (filter (fun x => Num.ltb v (cell j x)) rs) <= m)%nat).
Proof.
  intros Hna Hv Hk.
  assert (Hs0 : forall y, In y (map (cell j) rs) -> notna y = true).
  { intros y Hy. apply in_map_iff in Hy.
    destruct Hy as [x [<- Hx]]. apply Hna. exact Hx. }
  assert (Hs : forall y, In y (sort_desc (fun s => s) (map (cell j) rs)) ->
                 notna y = true).
  { intros y Hy. apply sort_desc_In in Hy. apply Hs0. exact Hy. }
  rewrite (@sorted_rank value (fun s => s) _ m kth v
             (sort_desc_sorted (fun s => s) _ Hs0) Hs Hv Hk).
  rewrite sort_desc_count, filter_map_length. reflexivity.
Qed.

(** [nlargest(n, keep="all")] is the top [n] with ties: a row of the
    group is selected exactly when fewer than [n] rows of the group have
    a strictly larger score. *)
Lemma nlargest_rank (n : Z) (j : nat) (rs : list (row T)) (r : row T) :
  1 <= n ->
  (forall x, In x rs -> notna (cell j x) = true) ->
  (In r (series_nlargest_all n j rs) <->
   In r rs /\ Z.of_nat (strictly_above j r rs) < n).
Proof.
  intros Hn Hna. split.
  - intro Hsel. pose proof (nlargest_subset _ _ _ _ Hsel) as [Hr Hnr].
    split; [exact Hr|].
    unfold series_nlargest_all in Hsel.
    destruct (Z.leb_spec n 0) as [H0 | _]; [lia|].
    destruct (Z.leb_spec (Z.of_nat (length rs)) n) as [Hlen | Hlen].
    + assert (Hlt : (strictly_above j r rs < length rs)%nat).
      { unfold strictly_above. eapply filter_length_lt; [exact Hr|].
        rewrite ltb_negb by assumption.
        rewrite leb_refl by assumption. reflexivity. }
      lia.
    + rewrite (filter_all _ _ Hna) in Hsel.
      rewrite Nat.min_l in Hsel by lia.
      unfold kth_largest in Hsel.
      destruct (nth_error (sort_desc (fun v => v) (map (cell j) rs))
                  (Z.to_nat n - 1)) as [kth|] eqn:Hk; [|destruct Hsel].
      apply sort_desc_In in Hsel. apply filter_In in Hsel.
      destruct Hsel as [_ Hle].
      apply (@scores_rank j rs _ kth (cell j r) Hna Hnr Hk) in Hle.
      unfold strictly_above. lia.
  - intros [Hr Hc].
    destruct (Z.leb_spec (Z.of_nat (length rs)) n) as [Hlen | Hlen].
    + apply nlargest_small_group; assumption.
    + unfold series_nlargest_all.
      destruct (Z.leb_spec n 0) as [H0 | _]; [lia|].
      destruct (Z.leb_spec (Z.of_nat (length rs)) n) as [H1 | _]; [lia|].
      rewrite (filter_all _ _ Hna). rewrite Nat.min_l by lia.
      unfold kth_largest.
      destruct (nth_error (sort_desc (fun v => v) (map (cell j) rs))
                  (Z.to_nat n - 1)) as [kth|] eqn:Hk.
      * apply sort_desc_In. apply filter_In. split; [exact Hr|].
        apply (@scores_rank j rs _ kth (cell j r) Hna (Hna r Hr) Hk).
        unfold strictly_above in Hc. lia.
      * exfalso. apply nth_error_None in Hk.
        rewrite sort_desc_length, length_map in Hk. lia.
Qed.
End NlargestRank.

(** ** The Top-N Selector *)

Lemma flat_map_rows (A T : Type) (cols : list string)
    (f : A -> list (row T)) (l : list A) :
  flat_map (@rows T) (map (fun k => mkFrame cols (f k)) l) = flat_map f l.
Proof. induction l as [|a l IH]; simpl; [reflexivity|]. rewrite IH. reflexivity. Qed.

Lemma select_top_n_ok (df : cframe) (n : Z) (j : nat) :
  get_loc "Score" (columns df) = Some j ->
  select_top_n df n =
  Ok (mkFrame (columns df)
        (flat_map (fun k => series_nlargest_all n j (get_group k (rows df)))
           (group_keys (rows df)))).
Proof.
  intro H. unfold select_top_n, groupby_apply.
  rewrite (mapM_ok _
             (fun k => mkFrame (columns df)
                         (series_nlargest_all n j (get_group k (rows df))))).
  - simpl. unfold reset_index_drop. rewrite flat_map_rows. reflexivity.
  - intros k _. unfold nlargest_all. cbn [columns rows]. rewrite H.
    reflexivity.
Qed.

Lemma select_top_n_no_score (df : cframe) (n : Z) :
  get_loc "Score" (columns df) = None ->
  select_top_n df n =
  match group_keys (rows df) with
  | [] => Ok (mkFrame (columns df) [])
  | _ :: _ => Raise (KeyError "Score")
  end.
Proof.
  intro H. unfold select_top_n, groupby_apply.
  destruct (group_keys (rows df)) as [|k ks]; [reflexivity|].
  simpl. unfold nlargest_all at 1. cbn [columns rows]. rewrite H. reflexivity.
Qed.

(** The selector never answers with [ValueError]: nothing in it inspects
    [n]. *)
Lemma select_top_n_no_value_error (df : cframe) (n : Z) :
  select_top_n df n <> Raise ValueError.
Proof.
  destruct (get_loc "Score" (columns df)) as [j|] eqn:H.
  - rewrite (select_top_n_ok _ _ H). discriminate.
  - rewrite (select_top_n_no_score _ _ H).
    destruct (group_keys (rows df)); discriminate.
Qed.

Lemma select_top_n_columns (df sel : cframe) (n : Z) :
  select_top_n df n = Ok sel -> columns sel = columns df.
Proof.
  destruct (get_loc "Score" (columns df)) as [j|] eqn:H.
  - rewrite (select_top_n_ok _ _ H). intro E. injection E as <-. reflexivity.
  - rewrite (select_top_n_no_score _ _ H).
    destruct (group_keys (rows df)); [|discriminate].
    intro E. injection E as <-. reflexivity.
Qed.

(** A selected row is a row of the input, in a valid season, with a
    non-null score. *)
Lemma select_top_n_subset (df sel : cframe) (n : Z) (r : crow) :
  select_top_n df n = Ok sel -> In r (rows sel) ->
  In r (rows df) /\
  (exists k, has_key k r = true /\ In k (group_keys (rows df))) /\
  (forall j, get_loc "Score" (columns df) = Some j ->
             notna (cell j r) = true).
Proof.
  destruct (get_loc "Score" (columns df)) as [j|] eqn:H.
  - rewrite (select_top_n_ok _ _ H). intro E. injection E as <-.
    cbn [rows]. intro Hr. apply in_flat_map in Hr.
    destruct Hr as [k [Hk Hr]]. apply nlargest_subset in Hr.
    destruct Hr as [Hg Hna]. apply get_group_In in Hg.
    destruct Hg as [Hin Hkey].
    split; [exact Hin|]. split; [exists k; auto|].
    intros j' Hj'. injection Hj' as <-. exact Hna.
  - rewrite (select_top_n_no_score _ _ H).
    destruct (group_keys (rows df)); [|discriminate].
    intro E. injection E as <-. intros [].
Qed.

Lemma has_key_unique (k k' : key) (r : crow) :
  has_key k r = true -> has_key k' r = true -> k = k'.
Proof.
  intros H H'. apply has_key_iff in H. apply has_key_iff in H'.
  destruct H as [H1 H2], H' as [H1' H2'].
  destruct k, k'; simpl in *. congruence.
Qed.

Lemma select_top_n_In (df : cframe) (n : Z) (j : nat) (r : crow) (k : key) :
  get_loc "Score" (columns df) = Some j ->
  In r (rows df) -> has_key k r = true ->
  forall sel, select_top_n df n = Ok sel ->
  (In r (rows sel) <-> In r (series_nlargest_all n j (get_group k (rows df)))).
Proof.
  intros H Hr Hk sel. rewrite (select_top_n_ok _ _ H).
  intro E. injection E as <-. cbn [rows]. rewrite in_flat_map. split.
  - intros [k' [Hk' Hsel]].
    pose proof (nlargest_subset _ _ _ _ Hsel) as [Hg _].
    apply get_group_In in Hg. destruct Hg as [_ Hkey].
    rewrite (has_key_unique _ _ _ Hk Hkey). exact Hsel.
  - intro Hsel. exists k. split; [|exact Hsel].
    apply group_keys_In. exists r. auto.
Qed.

(** C1 — Tie-inclusion in the Top-N Selector.  On a table whose scores
    are not null (the caller's duty, which [analyze_trend] fulfils) and
    for every [n >= 1], the selector returns a table in which, for every
    partition: every row whose score equals the [n]-th largest score of
    the partition is selected; if the partition has fewer than [n] rows,
    all of them are selected; and in general a row is selected exactly
    when fewer than [n] rows of its partition score strictly higher, so a
    tie at the boundary is never cut.  This can select more than [n]
    rows: with [n = 5] and equal fifth and sixth scores, six rows are
    selected. *)
Theorem tie_inclusion :
  (forall (df : cframe) (n : Z) (j : nat),
     get_loc "Score" (columns df) = Some j ->
     1 <= n ->
     (forall r, In r (rows df) -> notna (cell j r) = true) ->
     exists selected,
       select_top_n df n = Ok selected /\
       forall r k,
         In r (rows df) -> has_key k r = true ->
         let partition := get_group k (rows df) in
         (forall kth,
            kth_largest (Z.to_nat n) (map (cell j) partition) = Some kth ->
            equiv (cell j r) kth -> In r (rows selected)) /\
         (Z.of_nat (length partition) < n -> In r (rows selected)) /\
         (In r (rows selected) <->
          Z.of_nat (strictly_above j r partition) < n)) /\
  (exists selected,
     select_top_n tie_sample 5 = Ok selected /\
     length (rows selected) = 6%nat /\
     In (mkRow 2020 (Some fall) [Fin 5; Fin 0; Fin 1]) (rows selected) /\
     In (mkRow 2020 (Some fall) [Fin 5; Fin 1; Fin 0]) (rows selected)).
Proof.
  split.
  - intros df n j Hj Hn Hna.
    eexists. split; [apply (select_top_n_ok _ _ Hj)|].
    intros r k Hr Hk partition.
    assert (Hpart : In r partition) by (apply get_group_In; auto).
    assert (Hpna : forall x, In x partition -> notna (cell j x) = true).
    { intros x Hx. apply get_group_In in Hx. apply Hna. apply Hx. }
    pose proof (@select_top_n_In df n j r k Hj Hr Hk _
                  (select_top_n_ok df n Hj)) as Hin.
    split; [|split].
    + intros kth Hkth He. apply Hin.
      eapply nlargest_ties; eassumption.
    + intro Hlen. apply Hin.
      apply nlargest_small_group;
        [exact Hn | apply Z.lt_le_incl; exact Hlen | exact Hpna | exact Hpart].
    + rewrite Hin.
      rewrite (@nlargest_rank _ n j (get_group k (rows df)) r Hn Hpna).
      split; [intros [_ H]; exact H | intro H; split; [exact Hpart | exact H]].
  - eexists. split; [reflexivity|]. simpl. intuition.
Qed.

Lemma tie_inclusion_witness :
  exists selected,
    select_top_n tie_sample 5 = Ok selected /\
    In (mkRow 2020 (Some fall) [Fin 5; Fin 1; Fin 0]) (rows selected).
Proof.
  destruct (proj1 tie_inclusion tie_sample 5 0%nat eq_refl) as (sel & Hsel & H).
  - lia.
  - intros r Hr. simpl in Hr.
    repeat (destruct Hr as [<- | Hr]; [reflexivity|]). destruct Hr.
  - exists sel. split; [exact Hsel|].
    refine (proj1 (H (mkRow 2020 (Some fall) [Fin 5; Fin 1; Fin 0])
                     (2020, fall) _ eq_refl) (Fin 5) eq_refl _).
    + simpl. intuition.
    + simpl. reflexivity.
Defined.

Lemma notna_isna (v : value) : notna v = true <-> isna v = false.
Proof. unfold notna. destruct (isna v); simpl; split; congruence. Qed.

(** C8 — Null-score exclusion.  No row of the selector's output has a
    null score, whatever the input table; and in the pipeline the table
    handed to the selector already holds no null score, because the rows
    without a score were dropped first and the selector only picks rows
    of its input. *)
Theorem null_score_excluded :
  (forall (df sel : cframe) (n : Z) (j : nat) (r : crow),
     select_top_n df n = Ok sel ->
     get_loc "Score" (columns sel) = Some j ->
     In r (rows sel) -> isna (cell j r) = false) /\
  (forall (raw : frame string) (n : Z),
     In "Score" (columns raw) ->
     exists d sel j,
       dropna_subset "Score" raw = Ok d /\
       get_loc "Score" (columns raw) = Some j /\
       (forall r, In r (rows (set_season_categorical d)) ->
                  isna (cell j r) = false) /\
       select_top_n (set_season_categorical d) n = Ok sel /\
       (forall r, In r (rows sel) ->
                  In r (rows (set_season_categorical d)) /\
                  isna (cell j r) = false)).
Proof.
  split.
  - intros df sel n j r Hsel Hj Hr.
    rewrite (select_top_n_columns _ _ Hsel) in Hj.
    apply notna_isna.
    apply (proj2 (proj2 (select_top_n_subset _ _ _ Hsel Hr))). exact Hj.
  - intros raw n Hin. destruct (get_loc_some _ _ Hin) as [j Hj].
    assert (Hd : dropna_subset "Score" raw =
                 Ok (mkFrame (columns raw)
                       (filter (fun r => notna (cell j r)) (rows raw)))).
    { unfold dropna_subset. rewrite Hj. reflexivity. }
    assert (Hclean : forall r,
               In r (rows (set_season_categorical
                             (mkFrame (columns raw)
                                (filter (fun r => notna (cell j r))
                                   (rows raw))))) ->
               isna (cell j r) = false).
    { intros r Hr. cbn [set_season_categorical rows columns] in Hr.
      apply in_map_iff in Hr. destruct Hr as [r0 [<- Hr0]].
      apply filter_In in Hr0. apply notna_isna. apply Hr0. }
    eexists. eexists. exists j.
    split; [exact Hd|]. split; [exact Hj|]. split; [exact Hclean|].
    split; [apply (select_top_n_ok _ n (j := j)); exact Hj|].
    intros r Hr.
    assert (Hr' : In r (rows (set_season_categorical
                                (mkFrame (columns raw)
                                   (filter (fun r => notna (cell j r))
                                      (rows raw)))))).
    { eapply select_top_n_subset;
        [apply (select_top_n_ok _ n (j := j)); exact Hj | exact Hr]. }
    split; [exact Hr' | apply Hclean; exact Hr'].
Qed.

Lemma null_score_excluded_witness :
  exists d sel j,
    dropna_subset "Score" raw_sample = Ok d /\
    select_top_n (set_season_categorical d) 5 = Ok sel /\
    (forall r, In r (rows sel) -> isna (cell j r) = false) /\
    isna (cell 0 (mkRow 2020 (Some fall) [Fin 9; Fin 1; Fin 0])) = false.
Proof.
  destruct (proj2 null_score_excluded raw_sample 5)
    as (d & sel & j & Hd & _ & _ & Hsel & H).
  - simpl. auto.
  - exists d, sel, j. split; [exact Hd|]. split; [exact Hsel|].
    split; [intros r Hr; apply (H r Hr)|].
    apply (proj1 null_score_excluded tie_sample
             (mkFrame ["Score"; "Action"; "Drama"]
                [mkRow 2020 (Some fall) [Fin 9; Fin 1; Fin 0]])
             1 0%nat (mkRow 2020 (Some fall) [Fin 9; Fin 1; Fin 0])
             eq_refl eq_refl).
    simpl. auto.
Defined.

(** ** The Genre Aggregator *)

Lemma columns_difference_In (cols other : list string) (c : string) :
  In c (columns_difference cols other) <-> In c cols /\ ~ In c other.
Proof.
  unfold columns_difference.
  rewrite sort_uniq_In by (intros ? ?; apply String.eqb_eq).
  rewrite filter_In, negb_true_iff, mem_false. reflexivity.
Qed.

Lemma getitem_columns_ok (T : Type) (labels : list string) (df : frame T) :
  (forall c, In c labels -> In c (columns df)) ->
  getitem_columns labels df =
  Ok (mkFrame labels
        (map (fun r => mkRow (Year r) (Season r)
                         (map (fun c => cell (loc_of c (columns df)) r) labels))
           (rows df))).
Proof.
  intro H. unfold getitem_columns.
  rewrite (mapM_ok _ (fun c => loc_of c (columns df))).
  - simpl. f_equal. f_equal. apply map_ext. intro r.
    rewrite map_map. reflexivity.
  - intros c Hc. unfold loc_of.
    destruct (get_loc_some _ _ (H c Hc)) as [j Hj]. rewrite Hj. reflexivity.
Qed.

Lemma existsb_get_group (k : key) (rs : list crow) :
  existsb (has_key k) rs = true <-> get_group k rs <> [].
Proof.
  unfold get_group. induction rs as [|r rs IH]; simpl.
  - split; [discriminate | congruence].
  - destruct (has_key k r); simpl; [split; [discriminate | reflexivity]|].
    exact IH.
Qed.

Lemma cell_finite (T : Type) (j : nat) (r : row T) :
  Forall finite_or_na (cells r) -> finite_or_na (cell j r).
Proof.
  intro H. unfold cell.
  destruct (nth_in_or_default j (cells r) NaN) as [Hin | ->]; [|exact I].
  rewrite Forall_forall in H. apply H. exact Hin.
Qed.

Section AggregatorFacts.
Variable selected : cframe.

(** The data model of the table: numeric cells are finite or null. *)
Hypothesis finite_cells :
  forall r, In r (rows selected) -> Forall finite_or_na (cells r).

(** The group-wise sum of an observed key holds no NaN. *)
Lemma group_sum_observed (k : key) :
  get_group k (rows selected) <> [] ->
  forallb notna (cells (group_sum selected k)) = true /\
  cells (group_sum selected k) =
  map (fun j => Num.sum (map (cell j) (get_group k (rows selected))))
    (seq 0 (length (columns selected))).
Proof.
  intro Hne. unfold group_sum. cbv zeta.
  destruct (get_group k (rows selected)) as [|r0 g] eqn:Hg; [congruence|].
  cbn [cells]. split; [|reflexivity].
  apply forallb_forall. intros v Hv. apply in_map_iff in Hv.
  destruct Hv as [j [<- _]]. apply notna_isna. apply sum_never_na.
  apply Forall_map. apply Forall_forall. intros r Hr.
  apply cell_finite. apply finite_cells.
  assert (Hin : In r (get_group k (rows selected))) by (rewrite Hg; exact Hr).
  apply get_group_In in Hin. apply Hin.
Qed.

(** The row of an unobserved key is NaN in every column. *)
Lemma group_sum_unobserved (k : key) :
  get_group k (rows selected) = [] ->
  cells (group_sum selected k) = map (fun _ => NaN) (columns selected).
Proof. intro Hg. unfold group_sum. cbv zeta. rewrite Hg. reflexivity. Qed.

(** After [dropna()] exactly the rows of the observed keys remain, as
    soon as the table has a column. *)
Lemma dropna_groupby_sum :
  (rows selected <> [] -> columns selected <> []) ->
  rows (dropna (groupby_sum selected)) =
  map (group_sum selected) (group_keys (rows selected)).
Proof.
  intro Hcols. unfold dropna, groupby_sum, group_keys. cbn [rows columns].
  destruct (columns selected) as [|c cs] eqn:Hc.
  - destruct (rows selected) as [|r0 rs] eqn:Hr; [reflexivity|].
    exfalso. apply Hcols; [discriminate | reflexivity].
  - clear Hcols.
    induction (product (year_levels (rows selected)) categories)
      as [|k ks IH]; [reflexivity|].
    cbn [map filter]. rewrite IH.
    destruct (existsb (has_key k) (rows selected)) eqn:E.
    + apply existsb_get_group in E.
      rewrite (proj1 (group_sum_observed k E)). reflexivity.
    + assert (Hg : get_group k (rows selected) = []).
      { destruct (get_group k (rows selected)) eqn:G; [reflexivity|].
        assert (E' : existsb (has_key k) (rows selected) = true).
        { apply existsb_get_group. congruence. }
        congruence. }
      rewrite (group_sum_unobserved k Hg), Hc. reflexivity.
Qed.
End AggregatorFacts.

Lemma StronglySorted_map (A B : Type) (R : A -> A -> Prop)
    (R' : B -> B -> Prop) (f : A -> B) (l : list A) :
  (forall a b, R a b -> R' (f a) (f b)) ->
  StronglySorted R l -> StronglySorted R' (map f l).
Proof.
  intros Hf. induction 1 as [|a l Hl IH Ha]; simpl; constructor; auto.
  apply Forall_map. eapply Forall_impl; [|exact Ha]. intros b. apply Hf.
Qed.

Lemma StronglySorted_NoDup (A : Type) (R : A -> A -> Prop) (l : list A) :
  (forall a, ~ R a a) -> StronglySorted R l -> NoDup l.
Proof.
  intros Hirr. induction 1 as [|a l Hl IH Ha]; constructor; auto.
  intro Hin. rewrite Forall_forall in Ha. exact (Hirr a (Ha a Hin)).
Qed.

Lemma chrono_lt_irrefl (a : Z * option season) : ~ chrono_lt a a.
Proof. unfold chrono_lt. lia. Qed.

Section AggregateSpec.
Variable basic_headers : list string.
Variable selected : cframe.

Lemma aggregate_genres_ok :
  aggregate_genres basic_headers selected =
  Ok (mkFrame (genre_labels basic_headers selected)
        (map (project basic_headers selected)
           (rows (dropna (groupby_sum selected))))).
Proof.
  unfold aggregate_genres.
  rewrite getitem_columns_ok; [reflexivity|].
  intros c Hc. cbn [columns dropna groupby_sum] in *.
  apply columns_difference_In in Hc. apply Hc.
Qed.

(** Whatever the cells hold, the aggregated rows come in chronological
    order of their keys. *)
Lemma aggregate_genres_sorted (out : cframe) :
  aggregate_genres basic_headers selected = Ok out ->
  StronglySorted chrono_lt (map index_key (rows out)) /\
  (forall r, In r (rows out) -> exists s, Season r = Some s).
Proof.
  rewrite aggregate_genres_ok. intro E. injection E as <-. cbn [rows].
  unfold dropna, groupby_sum. cbn [rows columns]. split.
  - rewrite map_map.
    apply (StronglySorted_map
             (R := fun a b => chrono_lt (index_key a) (index_key b)));
      [intros a b H; exact H|].
    apply StronglySorted_filter.
    apply (StronglySorted_map (R := key_lt)).
    + intros a b H. exact H.
    + apply product_sorted. apply year_levels_sorted.
  - intros r Hr. apply in_map_iff in Hr. destruct Hr as [r0 [<- Hr0]].
    apply filter_In in Hr0. destruct Hr0 as [Hr0 _].
    apply in_map_iff in Hr0. destruct Hr0 as [k [<- _]].
    exists (snd k). reflexivity.
Qed.

Hypothesis finite_cells :
  forall r, In r (rows selected) -> Forall finite_or_na (cells r).
Hypothesis has_column : rows selected <> [] -> columns selected <> [].

Lemma aggregate_genres_rows :
  aggregate_genres basic_headers selected =
  Ok (mkFrame (genre_labels basic_headers selected)
        (map (fun k => project basic_headers selected (group_sum selected k))
           (group_keys (rows selected)))).
Proof.
  rewrite aggregate_genres_ok.
  rewrite (@dropna_groupby_sum selected finite_cells has_column), map_map.
  reflexivity.
Qed.

(** Under a label of the output, the row of an observed key reads the
    sum of that column over the group of the key. *)
Lemma aggregate_genres_cell (k : key) (c : string) (j : nat) :
  In k (group_keys (rows selected)) ->
  In c (genre_labels basic_headers selected) -> get_loc c (columns selected) = Some j ->
  get_cell (mkFrame (genre_labels basic_headers selected) []) c
    (project basic_headers selected (group_sum selected k)) =
  Some (Num.sum (map (cell j) (get_group k (rows selected)))).
Proof.
  intros Hk Hc Hj. unfold get_cell. cbn [columns].
  destruct (get_loc_some _ _ Hc) as [i Hi]. rewrite Hi. cbn [option_map].
  f_equal. unfold cell at 1. unfold project. cbn [cells]. unfold genre_labels in *.
  pose proof (get_loc_nth _ _ Hi) as Hnth.
  rewrite (nth_error_nth _ _ _
             (map_nth_error
                (fun c => cell (loc_of c (columns selected))
                            (group_sum selected k)) _ _ Hnth)).
  unfold loc_of. rewrite Hj.
  assert (Hne : get_group k (rows selected) <> []).
  { apply existsb_get_group. apply group_keys_In in Hk.
    apply existsb_exists. exact Hk. }
  unfold cell at 1.
  rewrite (proj2 (@group_sum_observed selected finite_cells k Hne)).
  apply nth_error_nth. apply nth_error_map_seq.
  apply nth_error_Some. rewrite (get_loc_nth _ _ Hj). discriminate.
Qed.
End AggregateSpec.

Lemma select_top_n_has_column (df sel : cframe) (n : Z) :
  select_top_n df n = Ok sel -> rows sel <> [] -> columns sel <> [].
Proof.
  intros Hsel Hne. destruct (rows sel) as [|r rs] eqn:Hr; [congruence|].
  assert (Hin : In r (rows sel)) by (rewrite Hr; left; reflexivity).
  pose proof (select_top_n_subset _ _ _ Hsel Hin) as (_ & _ & _).
  rewrite (select_top_n_columns _ _ Hsel).
  destruct (get_loc "Score" (columns df)) as [j|] eqn:Hj.
  - apply get_loc_nth in Hj. intro E. rewrite E in Hj.
    destruct j; discriminate.
  - rewrite (select_top_n_no_score _ _ Hj) in Hsel.
    destruct (group_keys (rows df)); [|discriminate].
    injection Hsel as <-. discriminate.
Qed.

(** C4 — Genre Aggregator postcondition.  On the rows the selector
    returned (numeric cells finite or null), the aggregation succeeds and
    its table has: as columns exactly the columns that are not in
    [basic_headers], so no non-genre attribute is left; exactly one row
    per partition key (Year, Season) that occurs among the selected rows,
    no key twice and no other key; and in each such row, under every
    column, the sum of that column over the rows of the partition.  Rows
    (A=1, B=0) and (A=0, B=1) of one partition aggregate to
    (A=1, B=1). *)
Theorem aggregation_postcondition (basic_headers : list string)
    (df selected : cframe) (n : Z) :
  select_top_n df n = Ok selected ->
  (forall r, In r (rows selected) -> Forall finite_or_na (cells r)) ->
  (exists out,
     aggregate_genres basic_headers selected = Ok out /\
     only_genres_for_top_n basic_headers df n = Ok out /\
     (forall c, In c (columns out) <->
                In c (columns selected) /\ ~ In c basic_headers) /\
     NoDup (map index_key (rows out)) /\
     (forall k, In (fst k, Some (snd k)) (map index_key (rows out)) <->
                exists r, In r (rows selected) /\ has_key k r = true) /\
     (forall r', In r' (rows out) ->
        exists k,
          index_key r' = (fst k, Some (snd k)) /\
          forall c j,
            In c (columns out) -> get_loc c (columns selected) = Some j ->
            get_cell out c r' =
            Some (Num.sum (map (cell j) (get_group k (rows selected)))))) /\
  only_genres_for_top_n ["Score"] pair_sample 5 =
    Ok (mkFrame ["A"; "B"] [mkRow 2020 (Some fall) [Fin 1; Fin 1]]).
Proof.
  intros Hsel Hfin. split; [|reflexivity].
  pose proof (select_top_n_has_column _ _ Hsel) as Hcol.
  pose proof (@aggregate_genres_rows basic_headers selected Hfin Hcol) as Hagg.
  eexists. split; [exact Hagg|].
  split; [unfold only_genres_for_top_n; rewrite Hsel; exact Hagg|].
  cbn [rows columns]. split; [|split; [|split]].
  - intro c. apply columns_difference_In.
  - rewrite map_map. cbn [index_key Year Season].
    apply (StronglySorted_NoDup (R := chrono_lt) chrono_lt_irrefl).
    apply (StronglySorted_map (R := key_lt)); [intros a b H; exact H|].
    apply group_keys_sorted.
  - intro k. rewrite map_map. cbn [index_key Year Season group_sum].
    rewrite <- group_keys_In. rewrite in_map_iff. split.
    + intros [k' [E Hk']]. injection E as E1 E2.
      destruct k, k'; simpl in *. subst. exact Hk'.
    + intro Hk. exists k. split; [reflexivity | exact Hk].
  - intros r' Hr'. apply in_map_iff in Hr'. destruct Hr' as [k [<- Hk]].
    exists k. split; [reflexivity|].
    intros c j Hc Hj.
    apply (@aggregate_genres_cell basic_headers selected Hfin k c j Hk Hc Hj).
Qed.

Lemma aggregation_postcondition_witness :
  exists out,
    only_genres_for_top_n ["Score"] pair_sample 5 = Ok out /\
    NoDup (map index_key (rows out)).
Proof.
  assert (Hfin : forall r, In r (rows pair_sample) ->
                           Forall finite_or_na (cells r)).
  { intros r [<- | [<- | []]]; repeat constructor. }
  destruct (proj1 (@aggregation_postcondition ["Score"] pair_sample
                     pair_sample 5 eq_refl Hfin))
    as (out & _ & Hout & _ & Hnd & _).
  exists out. split; [exact Hout | exact Hnd].
Defined.

(** ** Null rows of the sum *)

Lemma forallb_isna_nan (A : Type) (l : list A) :
  forallb isna (map (fun _ => NaN) l) = true.
Proof. induction l; simpl; auto. Qed.

Lemma existsb_notna_nan (A : Type) (l : list A) :
  existsb notna (map (fun _ => NaN) l) = false.
Proof. induction l; simpl; auto. Qed.

Lemma forallb_notna_isna (l : list value) :
  l <> [] -> forallb notna l = true -> forallb isna l = false.
Proof.
  destruct l as [|v l]; [congruence|]. intros _. simpl.
  unfold notna. destruct (isna v); simpl; [discriminate | reflexivity].
Qed.

(** Under the data model every row of the group-wise sum is of one of two
    kinds: without any NaN (an observed key), or NaN in every column (an
    unobserved key). *)
Lemma summed_row_kinds (df selected : cframe) (n : Z) (r : crow) :
  select_top_n df n = Ok selected ->
  (forall r, In r (rows selected) -> Forall finite_or_na (cells r)) ->
  In r (rows (groupby_sum selected)) ->
  (forallb notna (cells r) = true /\ forallb isna (cells r) = false) \/
  (forallb notna (cells r) = false /\ forallb isna (cells r) = true /\
   existsb notna (cells r) = false).
Proof.
  intros Hsel Hfin Hr. unfold groupby_sum in Hr. cbn [rows] in Hr.
  apply in_map_iff in Hr. destruct Hr as [k [<- Hk]].
  assert (Hcols : columns selected <> []).
  { apply (select_top_n_has_column _ _ Hsel).
    apply product_In in Hk. destruct Hk as [Hy _].
    apply year_levels_In in Hy. destruct Hy as [r0 [Hr0 _]].
    intro E. rewrite E in Hr0. exact Hr0. }
  destruct (get_group k (rows selected)) as [|r0 g] eqn:Hg.
  - right. rewrite (group_sum_unobserved _ _ Hg).
    split; [|split; [apply forallb_isna_nan | apply existsb_notna_nan]].
    destruct (columns selected); [congruence | reflexivity].
  - left.
    assert (Hne : get_group k (rows selected) <> []) by congruence.
    destruct (@group_sum_observed selected Hfin k Hne) as [Hall Hcells].
    split; [exact Hall|]. apply forallb_notna_isna; [|exact Hall].
    rewrite Hcells. intro E. apply Hcols.
    apply (f_equal (@length _)) in E. rewrite length_map, length_seq in E.
    apply length_zero_iff_nil. exact E.
Qed.

(** C6 — Aggregator null-row policy.  Under the data model (numeric cells
    finite or null), a row of the group-wise sum is removed by [dropna()]
    exactly when it is null in every column, and a row that holds any
    non-null value is kept; the rows of the aggregator's output are the
    rows that were kept.  For one observed partition of the year 2020 the
    sum has four rows, one per season, and only the observed one
    remains. *)
Theorem null_rows_dropped (basic_headers : list string)
    (df selected : cframe) (n : Z) :
  select_top_n df n = Ok selected ->
  (forall r, In r (rows selected) -> Forall finite_or_na (cells r)) ->
  let summed := groupby_sum selected in
  (forall r, In r (rows summed) ->
     (forallb isna (cells r) = true <-> ~ In r (rows (dropna summed))) /\
     (existsb notna (cells r) = true -> In r (rows (dropna summed)))) /\
  (exists out,
     aggregate_genres basic_headers selected = Ok out /\
     map index_key (rows out) = map index_key (rows (dropna summed))) /\
  (length (rows (groupby_sum pair_sample)) = 4%nat /\
   map index_key (rows (dropna (groupby_sum pair_sample))) =
     [(2020, Some fall)]).
Proof.
  intros Hsel Hfin summed. split; [|split; [|split; reflexivity]].
  - intros r Hr.
    assert (Hkept : In r (rows (dropna summed)) <->
                    forallb notna (cells r) = true).
    { unfold dropna. cbn [rows]. rewrite filter_In. tauto. }
    destruct (@summed_row_kinds df selected n r Hsel Hfin Hr)
      as [[Hall Hnone] | (Hall & Hnone & Hex)].
    + split; [split|].
      * congruence.
      * intro H. exfalso. apply H. apply Hkept. exact Hall.
      * intros _. apply Hkept. exact Hall.
    + split; [split|].
      * intros _ H. apply Hkept in H. congruence.
      * intros _. exact Hnone.
      * congruence.
  - rewrite aggregate_genres_ok. eexists. split; [reflexivity|].
    cbn [rows]. rewrite map_map. reflexivity.
Qed.

Lemma null_rows_dropped_witness :
  ~ In (mkRow 2020 (Some winter) [NaN; NaN; NaN])
      (rows (dropna (groupby_sum pair_sample))) /\
  In (mkRow 2020 (Some fall) [Fin 17; Fin 1; Fin 1])
    (rows (dropna (groupby_sum pair_sample))).
Proof.
  assert (Hfin : forall r, In r (rows pair_sample) ->
                           Forall finite_or_na (cells r)).
  { intros r [<- | [<- | []]]; repeat constructor. }
  pose proof (proj1 (@null_rows_dropped ["Score"] pair_sample pair_sample 5
                       eq_refl Hfin)) as H.
  split.
  - apply (proj1 (H (mkRow 2020 (Some winter) [NaN; NaN; NaN])
                    (or_introl eq_refl))).
    reflexivity.
  - apply (proj2 (H (mkRow 2020 (Some fall) [Fin 17; Fin 1; Fin 1])
                    (or_intror (or_intror (or_intror (or_introl eq_refl)))))).
    reflexivity.
Defined.

(** The data-model hypothesis of C6 is needed: [dropna()] removes a row
    as soon as one cell is NaN, and opposite infinities in one column of
    a partition sum to NaN. *)
Example dropna_any_with_infinities :
  rows (dropna (groupby_sum
                  (mkFrame ["A"; "B"]
                     [mkRow 2020 (Some fall) [PInf; Fin 1];
                      mkRow 2020 (Some fall) [NInf; Fin 1]]))) = [].
Proof. reflexivity. Qed.

(** ** Chronological order *)

Lemma StronglySorted_app_inv (A : Type) (R : A -> A -> Prop)
    (l1 l2 : list A) (a b : A) :
  StronglySorted R (l1 ++ l2) -> In a l1 -> In b l2 -> R a b.
Proof.
  induction l1 as [|x l1 IH]; intros Hs Ha Hb; [destruct Ha|].
  simpl in Hs. inversion Hs as [|? ? Hs' Hx]; subst.
  destruct Ha as [-> | Ha].
  - rewrite Forall_forall in Hx. apply Hx. apply in_or_app. right. exact Hb.
  - apply IH; assumption.
Qed.

Lemma only_genres_returns (basic_headers : list string) (df : cframe)
    (n : Z) :
  In "Score" (columns df) ->
  exists out, only_genres_for_top_n basic_headers df n = Ok out.
Proof.
  intro H. destruct (get_loc_some _ _ H) as [j Hj].
  unfold only_genres_for_top_n. rewrite (select_top_n_ok _ n Hj).
  cbn [bind]. rewrite aggregate_genres_ok. eexists. reflexivity.
Qed.

(** C5 — Chronological partition ordering.  With the season made a
    category in the order winter, spring, summer, fall, the table
    returned by [only_genres_for_top_n] has its partitions in strictly
    increasing order of (Year, season code); so the last [count] rows,
    which [plot_trend] keeps as the recent window, all come
    chronologically after the rows it leaves out.  The function returns
    on every table with a Score column.  Partitions read as (2020, fall),
    (2021, winter), (2020, winter) are processed as (2020, winter),
    (2020, fall), (2021, winter). *)
Theorem chronological_order :
  (map Categorical ["winter"; "spring"; "summer"; "fall"] =
     map (@Some season) categories /\
   season_code winter < season_code spring /\
   season_code spring < season_code summer /\
   season_code summer < season_code fall) /\
  (forall (basic_headers : list string) (df out : cframe) (n : Z),
     only_genres_for_top_n basic_headers df n = Ok out ->
     StronglySorted chrono_lt (map index_key (rows out)) /\
     (forall count older newer,
        In older (firstn (len out - count) (rows out)) ->
        In newer (rows (tail count out)) ->
        chrono_lt (index_key older) (index_key newer))) /\
  (forall (basic_headers : list string) (df : cframe) (n : Z),
     In "Score" (columns df) ->
     exists out, only_genres_for_top_n basic_headers df n = Ok out) /\
  (exists only_genres trend5 trend10 heatmap,
     (df <- dropna_subset "Score" raw_sample ;;
      only_genres_for_top_n ["Score"; "Rank"] (set_season_categorical df) 5)
       = Ok only_genres /\
     map index_key (rows only_genres) =
       [(2020, Some winter); (2020, Some fall); (2021, Some winter)] /\
     analyze_trend ["Score"; "Rank"] raw_sample
       = Ok (trend5, trend10, heatmap) /\
     map index_key (rows trend5) =
       [(2020, Some winter); (2020, Some fall); (2021, Some winter)] /\
     map index_key (rows trend10) =
       [(2020, Some winter); (2020, Some fall); (2021, Some winter)]).
Proof.
  split; [split; [reflexivity | simpl; lia]|]. split; [|split].
  - intros basic_headers df out n Hout.
    unfold only_genres_for_top_n in Hout.
    destruct (select_top_n df n) as [sel|e]; [|discriminate].
    cbn [bind] in Hout.
    destruct (aggregate_genres_sorted _ _ Hout) as [Hs _].
    split; [exact Hs|].
    intros count older newer Ho Hn.
    unfold tail in Hn. cbn [rows] in Hn.
    rewrite <- (firstn_skipn (len out - count) (rows out)), map_app in Hs.
    apply (StronglySorted_app_inv _ _ _ _ Hs); apply in_map; assumption.
  - exact only_genres_returns.
  - do 4 eexists. repeat split; reflexivity.
Qed.

Lemma chronological_order_witness :
  exists out,
    only_genres_for_top_n ["Score"] tie_sample 5 = Ok out /\
    StronglySorted chrono_lt (map index_key (rows out)).
Proof.
  destruct (proj1 (proj2 (proj2 chronological_order)) ["Score"] tie_sample 5)
    as [out Hout].
  - simpl. auto.
  - exists out. split; [exact Hout|].
    exact (proj1 (proj1 (proj2 chronological_order) _ _ _ _ Hout)).
Defined.

(** ** Non-positive [n] *)

Lemma flat_map_nil (A B : Type) (f : A -> list B) (l : list A) :
  (forall x, f x = []) -> flat_map f l = [].
Proof.
  intro H. induction l as [|a l IH]; simpl; [reflexivity|].
  rewrite H, IH. reflexivity.
Qed.

(** C7, as the specification words it, fails: for [n = 0] the selector
    returns a table, the empty selection, and raises nothing. *)
Lemma top_n_zero_returns :
  select_top_n tie_sample 0 = Ok (mkFrame ["Score"; "Action"; "Drama"] []) /\
  (forall e, select_top_n tie_sample 0 <> Raise e) /\
  only_genres_for_top_n ["Score"] tie_sample 0 =
    Ok (mkFrame ["Action"; "Drama"] []).
Proof.
  split; [reflexivity|]. split; [|reflexivity].
  intros e H. vm_compute in H. discriminate.
Qed.

(** C7, as the code has it — With [n <= 0] the Top-N Selector does not
    fail: on every table that has a Score column it returns the table
    with the same columns and no row, and the aggregation over it returns
    a table with no row; and for no table and no [n] does the selector
    raise an invalid-argument error, since the program never inspects
    [n]. *)
Theorem nonpositive_n_selects_nothing (basic_headers : list string)
    (df : cframe) (n : Z) :
  (n <= 0 -> In "Score" (columns df) ->
   select_top_n df n = Ok (mkFrame (columns df) []) /\
   exists out,
     only_genres_for_top_n basic_headers df n = Ok out /\ rows out = []) /\
  select_top_n df n <> Raise ValueError.
Proof.
  split; [|apply select_top_n_no_value_error].
  intros Hn Hin. destruct (get_loc_some _ _ Hin) as [j Hj].
  assert (Hsel : select_top_n df n = Ok (mkFrame (columns df) [])).
  { rewrite (select_top_n_ok _ n Hj). rewrite flat_map_nil; [reflexivity|].
    intro k. apply nlargest_nonpositive. exact Hn. }
  split; [exact Hsel|].
  unfold only_genres_for_top_n. rewrite Hsel. cbn [bind].
  rewrite aggregate_genres_ok. eexists. split; reflexivity.
Qed.

Lemma nonpositive_n_selects_nothing_witness :
  select_top_n tie_sample (-3) = Ok (mkFrame (columns tie_sample) []).
Proof.
  apply (proj1 (nonpositive_n_selects_nothing ["Score"] tie_sample (-3))).
  - lia.
  - simpl. auto.
Defined.


(** * Further properties of the source functions *)

(** ** The window and the shape of [plot_trend] *)

Section PlotTrendShape.
Variable T : Type.

Lemma plot_trend_for_ok (window : nat) (min_fraction : Q) (df : frame T) :
  let count := Nat.min window (len df) in
  let recent := tail count df in
  let labels :=
    keep_mask (not_minimum_requirement_for min_fraction count recent)
      (columns df) in
  plot_trend_for window min_fraction df =
  Ok (normalize
        (mkFrame (filter (fun c => negb (mem c labels)) (columns df))
           (map (fun r => mkRow (Year r) (Season r)
                            (keep_mask
                               (map (fun c => negb (mem c labels))
                                  (columns df))
                               (cells r)))
              (rows recent)))).
Proof.
  cbv zeta. unfold plot_trend_for.
  rewrite (drop_if_ok _ _ (requirement_length min_fraction _ _)).
  reflexivity.
Qed.
End PlotTrendShape.


(** ** Proportions *)

Lemma elem_le_qsum (c : list value) (x : Q) :
  Forall count_or_na c -> In (Fin x) c -> (x <= qsum c)%Q.
Proof.
  induction 1 as [|v c Hv Hc IH]; intro Hin; [destruct Hin|].
  pose proof (qsum_nonneg Hc) as Hn.
  destruct Hin as [-> | Hin].
  - simpl. rewrite <- (Qplus_0_r x) at 1.
    apply Qplus_le_compat; [apply Qle_refl | exact Hn].
  - specialize (IH Hin). destruct v; simpl in *; auto.
    rewrite <- (Qplus_0_l x).
    apply Qplus_le_compat; assumption.
Qed.

(** A row of counts with a non-zero total becomes a row of proportions
    that add up to 1. *)
Lemma proportions_row (c : list value) (s : Q) :
  Forall count_or_na c -> Num.sum c = Fin s -> ~ (s == 0)%Q ->
  Forall proportion_or_na (map (fun v => Num.div v (Num.sum c)) c) /\
  equiv (Num.sum (map (fun v => Num.div v (Num.sum c)) c)) (Fin 1).
Proof.
  intros Hc Hsum Hs. split; [|eapply normalized_sum; eassumption].
  assert (Hf : Forall finite_or_na c).
  { eapply Forall_impl; [|exact Hc]. intros a. apply count_finite. }
  destruct (sum_finite Hf) as [s0 [Hs0 Hq]].
  rewrite Hsum in Hs0. injection Hs0 as <-.
  assert (Hpos : (0 < s)%Q).
  { pose proof (qsum_nonneg Hc) as Hn.
    rewrite <- Hq in Hn. apply Qle_lteq in Hn.
    destruct Hn as [Hn | Hn]; [exact Hn|]. exfalso. apply Hs.
    symmetry. exact Hn. }
  assert (E0 : Qeq_bool s 0 = false) by (apply Qeq_bool_false; exact Hs).
  rewrite Hsum. apply Forall_map. apply Forall_forall. intros v Hv.
  pose proof (proj1 (Forall_forall _ _) Hc v Hv) as Hcv.
  destruct v; simpl in Hcv; try contradiction; [|exact I].
  unfold Num.div. rewrite E0. unfold proportion_or_na.
  rewrite Qred_correct. split.
  - apply Qle_shift_div_l; [exact Hpos|]. rewrite Qmult_0_l. exact Hcv.
  - apply Qle_shift_div_r; [exact Hpos|]. rewrite Qmult_1_l.
    rewrite Hq. apply elem_le_qsum; assumption.
Qed.



(** ** Masks that select nothing or everything *)

Lemma keep_mask_all_false (A : Type) (mask : list bool) (l : list A) :
  (forall b, In b mask -> b = false) -> keep_mask mask l = [].
Proof.
  revert l. induction mask as [|b m IH]; intros l H; [reflexivity|].
  destruct l as [|x l]; [reflexivity|]. simpl.
  rewrite (H b (or_introl eq_refl)). apply IH.
  intros b' Hb'. apply H. right. exact Hb'.
Qed.

Lemma keep_mask_all_true (A : Type) (mask : list bool) (l : list A) :
  (forall b, In b mask -> b = true) -> length mask = length l ->
  keep_mask mask l = l.
Proof.
  revert l. induction mask as [|b m IH]; intros [|x l] H Hlen;
    try discriminate; [reflexivity|].
  simpl. rewrite (H b (or_introl eq_refl)). f_equal. apply IH.
  - intros b' Hb'. apply H. right. exact Hb'.
  - simpl in Hlen. lia.
Qed.

Lemma row_eta (T : Type) (r : row T) :
  mkRow (Year r) (Season r) (cells r) = r.
Proof. destruct r; reflexivity. Qed.

Lemma frame_eta (T : Type) (df : frame T) :
  mkFrame (columns df) (rows df) = df.
Proof. destruct df; reflexivity. Qed.

(** X3 — The two extremes of [drop_if] on a rectangular table.  A
    condition that marks no column returns the table as it is; a
    condition that marks every column returns a table without columns
    that still has every row, under its key, with no cell left. *)
Theorem drop_if_extremes (T : Type) (condition : frame T -> list bool)
    (df : frame T) :
  wf df -> length (condition df) = length (columns df) ->
  ((forall b, In b (condition df) -> b = false) ->
   drop_if condition df = Ok df) /\
  ((forall b, In b (condition df) -> b = true) ->
   drop_if condition df =
   Ok (mkFrame [] (map (fun r => mkRow (Year r) (Season r) []) (rows df)))).
Proof.
  intros Hwf Hlen. split; intro H; rewrite (drop_if_ok _ _ Hlen); cbv zeta.
  - rewrite (@keep_mask_all_false _ (condition df) (columns df) H).
    rewrite (@filter_all _ (fun c => negb (mem c [])) (columns df))
      by (intros; reflexivity).
    f_equal. transitivity (mkFrame (columns df) (rows df));
      [|apply frame_eta]. f_equal.
    transitivity (map (fun r : row T => r) (rows df)); [|apply map_id].
    apply map_ext_in.
    intros r Hr. rewrite keep_mask_all_true.
    + apply row_eta.
    + intros b Hb. apply in_map_iff in Hb. destruct Hb as [c [<- _]].
      reflexivity.
    + rewrite length_map. symmetry. apply Hwf. exact Hr.
  - rewrite (@keep_mask_all_true _ (condition df) (columns df) H Hlen).
    assert (Hall : forall c, In c (columns df) ->
                     negb (mem c (columns df)) = false).
    { intros c Hc. apply negb_false_iff. apply mem_In. exact Hc. }
    rewrite (@filter_none _ (fun c => negb (mem c (columns df)))
               (columns df) Hall). f_equal. f_equal.
    apply map_ext. intro r. f_equal.
    apply keep_mask_all_false. intros b Hb.
    apply in_map_iff in Hb. destruct Hb as [c [<- Hc]]. apply Hall. exact Hc.
Qed.

Lemma drop_if_extremes_witness :
  drop_if (fun _ => [false; false; false]) counts_sample = Ok counts_sample /\
  drop_if (fun _ => [true; true; true]) counts_sample =
    Ok (mkFrame [] [mkRow 2020 fall []; mkRow 2021 winter []]).
Proof.
  assert (Hwf : wf counts_sample).
  { intros r [<- | [<- | []]]; reflexivity. }
  split.
  - apply (proj1 (@drop_if_extremes season (fun _ => [false; false; false])
                    counts_sample Hwf eq_refl)).
    intros b [<- | [<- | [<- | []]]]; reflexivity.
  - apply (proj2 (@drop_if_extremes season (fun _ => [true; true; true])
                    counts_sample Hwf eq_refl)).
    intros b [<- | [<- | [<- | []]]]; reflexivity.
Defined.

(** ** Genres present everywhere, genres present nowhere *)

Lemma fraction_le_count (n : nat) :
  (inject_Z (Z.of_nat n) * (4 # 10) <= inject_Z (Z.of_nat n))%Q.
Proof. unfold Qle, Qmult, inject_Z. simpl. lia. Qed.

Lemma fraction_positive (n : nat) :
  (0 < n)%nat ->
  ~ (inject_Z (Z.of_nat n) * (4 # 10) <= inject_Z (Z.of_nat 0))%Q.
Proof. intro H. unfold Qle, Qmult, inject_Z. simpl. lia. Qed.

(** X4 — What the consistency requirement of [plot_trend] decides at the
    extremes, for a table with unique labels.  A genre whose count is at
    least 1 in every one of the recent partitions is kept; a genre whose
    count reaches 1 in none of them is dropped as soon as the table has a
    partition; and on a table without partitions nothing is dropped. *)
Theorem consistency_extremes (T : Type) (df : frame T) (j : nat)
    (c : string) :
  NoDup (columns df) -> nth_error (columns df) j = Some c ->
  let count := Nat.min 20 (len df) in
  let recent := tail count df in
  exists res,
    plot_trend df = Ok res /\
    (appearances j recent = count -> In c (columns res)) /\
    (appearances j recent = 0%nat -> (0 < len df)%nat ->
     ~ In c (columns res)) /\
    (len df = 0%nat -> In c (columns res)).
Proof.
  intros Hnd Hj count recent.
  destruct (@threshold_general T 20 (4 # 10) df j c Hnd Hj)
    as (filtered & _ & Hplot & _ & _ & Hiff & _).
  fold count in Hiff. fold recent in Hiff.
  exists (normalize filtered). split; [exact Hplot|].
  split; [|split].
  - intro H. apply Hiff. rewrite H. apply fraction_le_count.
  - intros H Hpos Hin. apply Hiff in Hin. rewrite H in Hin.
    revert Hin. apply fraction_positive. subst count. lia.
  - intro H0. apply Hiff.
    assert (Hc : count = 0%nat) by (subst count; rewrite H0; reflexivity).
    rewrite Hc. unfold Qle, Qmult, inject_Z. simpl. lia.
Qed.

Lemma consistency_extremes_witness :
  exists res,
    plot_trend (mkFrame ["Score"; "Drama"]
                  [mkRow 2020 (Some fall) [Fin 9; Fin 0]]) = Ok res /\
    In "Score" (columns res) /\ ~ In "Drama" (columns res).
Proof.
  assert (Hnd : NoDup ["Score"; "Drama"]).
  { repeat constructor; simpl; intuition discriminate. }
  destruct (@consistency_extremes _ (mkFrame ["Score"; "Drama"]
              [mkRow 2020 (Some fall) [Fin 9; Fin 0]]) 0%nat "Score"
              Hnd eq_refl) as (res & Hres & Hall & _).
  destruct (@consistency_extremes _ (mkFrame ["Score"; "Drama"]
              [mkRow 2020 (Some fall) [Fin 9; Fin 0]]) 1%nat "Drama"
              Hnd eq_refl) as (res' & Hres' & _ & Hnone & _).
  rewrite Hres in Hres'. injection Hres' as <-.
  exists res. split; [exact Hres|]. split.
  - apply Hall. reflexivity.
  - apply Hnone; [reflexivity | unfold len; simpl; apply Nat.lt_0_1].
Defined.

(** ** What the selector prefers *)

Lemma filter_length_mono (A : Type) (p q : A -> bool) (l : list A) :
  (forall x, In x l -> p x = true -> q x = true) ->
  (length (filter p l) <= length (filter q l))%nat.
Proof.
  induction l as [|a l IH]; intro H; simpl; [lia|].
  assert (IH' : (length (filter p l) <= length (filter q l))%nat).
  { apply IH. intros x Hx. apply H. right. exact Hx. }
  destruct (p a) eqn:Ep.
  - rewrite (H a (or_introl eq_refl) Ep). simpl. lia.
  - destruct (q a); simpl; lia.
Qed.

Lemma ltb_leb_trans (a b x : value) :
  notna a = true -> notna b = true -> notna x = true ->
  Num.leb a b = true -> Num.ltb b x = true -> Num.ltb a x = true.
Proof.
  intros Ha Hb Hx Hab Hbx.
  rewrite ltb_negb in * by assumption.
  apply negb_true_iff. apply negb_true_iff in Hbx.
  destruct (Num.leb x a) eqn:E; [|reflexivity].
  rewrite (leb_trans _ _ _ E Hab) in Hbx. discriminate.
Qed.

(** X5 — The selection is a top segment of every partition: with
    [n >= 1] and no null score, a selected row scores strictly higher
    than every row of its partition that is not selected. *)
Theorem selected_outscore (df sel : cframe) (n : Z) (j : nat)
    (r r' : crow) (k : key) :
  get_loc "Score" (columns df) = Some j ->
  1 <= n ->
  (forall x, In x (rows df) -> notna (cell j x) = true) ->
  select_top_n df n = Ok sel ->
  In r (rows df) -> In r' (rows df) ->
  has_key k r = true -> has_key k r' = true ->
  In r (rows sel) -> ~ In r' (rows sel) ->
  Num.ltb (cell j r') (cell j r) = true.
Proof.
  intros Hj Hn Hna Hsel Hr Hr' Hk Hk' Hin Hout.
  assert (Hpna : forall x, In x (get_group k (rows df)) ->
                           notna (cell j x) = true).
  { intros x Hx. apply get_group_In in Hx. apply Hna. apply Hx. }
  rewrite (@select_top_n_In df n j r k Hj Hr Hk sel Hsel) in Hin.
  rewrite (@select_top_n_In df n j r' k Hj Hr' Hk' sel Hsel) in Hout.
  rewrite (@nlargest_rank _ n j _ r Hn Hpna) in Hin.
  rewrite (@nlargest_rank _ n j _ r' Hn Hpna) in Hout.
  destruct Hin as [_ Hrank].
  rewrite ltb_negb by (apply Hna; assumption).
  apply negb_true_iff.
  destruct (Num.leb (cell j r) (cell j r')) eqn:E; [|reflexivity].
  exfalso. apply Hout. split; [apply get_group_In; auto|].
  assert (Hle : (strictly_above j r' (get_group k (rows df))
                 <= strictly_above j r (get_group k (rows df)))%nat).
  { unfold strictly_above. apply filter_length_mono.
    intros x Hx Hgt. eapply ltb_leb_trans; try eassumption;
      try (apply Hna; assumption). apply Hpna. exact Hx. }
  lia.
Qed.

Lemma selected_outscore_witness :
  Num.ltb (cell 0 (mkRow 2020 (Some fall) [Fin 4; Fin 1; Fin 0]))
    (cell 0 (mkRow 2020 (Some fall) [Fin 5; Fin 1; Fin 0])) = true.
Proof.
  refine (@selected_outscore tie_sample _ 5 0%nat
            (mkRow 2020 (Some fall) [Fin 5; Fin 1; Fin 0])
            (mkRow 2020 (Some fall) [Fin 4; Fin 1; Fin 0])
            (2020, fall) eq_refl _ _ eq_refl _ _ eq_refl eq_refl _ _).
  - lia.
  - intros x Hx. simpl in Hx.
    repeat (destruct Hx as [<- | Hx]; [reflexivity|]). destruct Hx.
  - simpl. intuition.
  - simpl. intuition.
  - simpl. intuition.
  - simpl. intros H.
    repeat (destruct H as [H | H]; [discriminate H|]). exact H.
Defined.

(** X6 — A larger [n] selects more: with no null score and [n <= m],
    every row selected for [n] is selected for [m]; in particular every
    item behind the top-5 table of [analyze_trend] is also behind its
    top-10 table. *)
Theorem selection_monotone (df sel_n sel_m : cframe) (n m : Z) (j : nat)
    (r : crow) :
  get_loc "Score" (columns df) = Some j ->
  (forall x, In x (rows df) -> notna (cell j x) = true) ->
  n <= m ->
  select_top_n df n = Ok sel_n -> select_top_n df m = Ok sel_m ->
  In r (rows sel_n) -> In r (rows sel_m).
Proof.
  intros Hj Hna Hnm Hn Hm Hin.
  destruct (select_top_n_subset _ _ _ Hn Hin) as (Hr & (k & Hk & _) & _).
  assert (Hpna : forall x, In x (get_group k (rows df)) ->
                           notna (cell j x) = true).
  { intros x Hx. apply get_group_In in Hx. apply Hna. apply Hx. }
  rewrite (@select_top_n_In df n j r k Hj Hr Hk sel_n Hn) in Hin.
  rewrite (@select_top_n_In df m j r k Hj Hr Hk sel_m Hm).
  destruct (Z.leb_spec n 0) as [H0 | H1].
  - rewrite nlargest_nonpositive in Hin by exact H0. destruct Hin.
  - assert (Hn1 : 1 <= n) by lia. assert (Hm1 : 1 <= m) by lia.
    rewrite (@nlargest_rank _ n j _ r Hn1 Hpna) in Hin.
    rewrite (@nlargest_rank _ m j _ r Hm1 Hpna).
    destruct Hin as [Hg Hrank]. split; [exact Hg | lia].
Qed.

Lemma selection_monotone_witness :
  exists sel10,
    select_top_n tie_sample 10 = Ok sel10 /\
    In (mkRow 2020 (Some fall) [Fin 9; Fin 1; Fin 0]) (rows sel10).
Proof.
  eexists. split; [reflexivity|].
  refine (@selection_monotone tie_sample _ _ 5 10 0%nat _ eq_refl _ _
            eq_refl eq_refl _).
  - intros x Hx. simpl in Hx.
    repeat (destruct Hx as [<- | Hx]; [reflexivity|]). destruct Hx.
  - lia.
  - simpl. intuition.
Defined.

(** ** The selection, partition by partition *)

Lemma sorted_prefix_count (A : Type) (key : A -> value) (l : list A)
    (m : nat) (k : A) :
  StronglySorted (descending key) l ->
  (forall y, In y l -> notna (key y) = true) ->
  nth_error l m = Some k ->
  (m < length (filter (fun x => Num.leb (key k) (key x)) l))%nat.
Proof.
  intros Hs. revert m. induction Hs as [|a l Hs IH Ha]; intros m Hl Hm.
  - destruct m; discriminate.
  - destruct m as [|m]; simpl in Hm.
    + injection Hm as <-. simpl.
      rewrite leb_refl by (apply Hl; left; reflexivity). simpl. lia.
    + assert (Hka : Num.leb (key k) (key a) = true).
      { rewrite Forall_forall in Ha. apply Ha.
        eapply nth_error_In. exact Hm. }
      simpl. rewrite Hka. simpl.
      assert (Hl' : forall y, In y l -> notna (key y) = true).
      { intros y Hy. apply Hl. right. exact Hy. }
      specialize (IH m Hl' Hm). lia.
Qed.

Section SelectionSize.
Variable T : Type.

Lemma nlargest_length_le (n : Z) (j : nat) (rs : list (row T)) :
  (length (series_nlargest_all n j rs) <= length rs)%nat.
Proof.
  unfold series_nlargest_all.
  destruct (n <=? 0); [simpl; lia|].
  pose proof (filter_length_le (fun r => notna (cell j r)) rs) as Hd.
  destruct (Z.of_nat (length rs) <=? n).
  - rewrite length_firstn, sort_desc_length. lia.
  - destruct (kth_largest _ _); [|simpl; lia].
    rewrite sort_desc_length.
    pose proof (filter_length_le (fun r => Num.leb v (cell j r))
                  (filter (fun r => notna (cell j r)) rs)). lia.
Qed.

Lemma nlargest_length_ge (n : Z) (j : nat) (rs : list (row T)) :
  1 <= n ->
  (forall x, In x rs -> notna (cell j x) = true) ->
  (Nat.min (Z.to_nat n) (length rs)
   <= length (series_nlargest_all n j rs))%nat.
Proof.
  intros Hn Hna. unfold series_nlargest_all.
  destruct (Z.leb_spec n 0) as [H0 | _]; [lia|].
  rewrite (filter_all _ _ Hna).
  destruct (Z.leb_spec (Z.of_nat (length rs)) n) as [Hlen | Hlen].
  - rewrite firstn_all2 by (rewrite sort_desc_length; lia).
    rewrite sort_desc_length. lia.
  - rewrite Nat.min_l by lia. unfold kth_largest.
    destruct (nth_error (sort_desc (fun v => v) (map (cell j) rs))
                (Z.to_nat n - 1)) as [kth|] eqn:Hk.
    + rewrite sort_desc_length.
      assert (Hs0 : forall y, In y (map (cell j) rs) -> notna y = true).
      { intros y Hy. apply in_map_iff in Hy.
        destruct Hy as [x [<- Hx]]. apply Hna. exact Hx. }
      assert (Hs : forall y,
                 In y (sort_desc (fun s => s) (map (cell j) rs)) ->
                 notna y = true).
      { intros y Hy. apply sort_desc_In in Hy. apply Hs0. exact Hy. }
      pose proof (@sorted_prefix_count value (fun s => s) _ _ kth
                    (sort_desc_sorted (fun s => s) _ Hs0) Hs Hk) as Hc.
      rewrite sort_desc_count, filter_map_length in Hc. lia.
    + exfalso. apply nth_error_None in Hk.
      rewrite sort_desc_length, length_map in Hk. lia.
Qed.
End SelectionSize.

Lemma get_group_flat_map (f : key -> list crow) (keys : list key)
    (k : key) :
  NoDup keys ->
  (forall k' x, In x (f k') -> has_key k' x = true) ->
  get_group k (flat_map f keys) =
  match find (fun k' => (fst k' =? fst k) && season_eqb (snd k') (snd k))
          keys with
  | Some _ => f k
  | None => []
  end.
Proof.
  intros Hnd Hf. unfold get_group.
  induction Hnd as [|k0 ks Hk0 Hnd IH]; [reflexivity|].
  cbn [flat_map find]. rewrite filter_app, IH.
  destruct ((fst k0 =? fst k) && season_eqb (snd k0) (snd k)) eqn:E.
  - apply andb_true_iff in E. destruct E as [E1 E2].
    apply Z.eqb_eq in E1. apply season_eqb_eq in E2.
    assert (Ek : k0 = k) by (destruct k0, k; simpl in *; congruence).
    subst k0. rewrite (filter_all _ (f k)) by (intros x Hx; eapply Hf; exact Hx).
    assert (Hnone : find (fun k' => (fst k' =? fst k)
                                    && season_eqb (snd k') (snd k)) ks = None).
    { apply find_none_all. intros k' Hk'.
      destruct ((fst k' =? fst k) && season_eqb (snd k') (snd k)) eqn:E';
        [|reflexivity].
      apply andb_true_iff in E'. destruct E' as [E1' E2'].
      apply Z.eqb_eq in E1'. apply season_eqb_eq in E2'.
      exfalso. apply Hk0.
      assert (k' = k) by (destruct k', k; simpl in *; congruence).
      subst k'. exact Hk'. }
    rewrite Hnone. apply app_nil_r.
  - rewrite (filter_none (has_key k) (f k0)); [reflexivity|].
    intros x Hx. destruct (has_key k x) eqn:Hkx; [|reflexivity].
    pose proof (has_key_unique _ _ _ Hkx (Hf k0 x Hx)) as Ek. subst k0.
    rewrite Z.eqb_refl in E. simpl in E.
    assert (season_eqb (snd k) (snd k) = true) by (apply season_eqb_eq; reflexivity).
    congruence.
Qed.

Lemma find_key_some (keys : list key) (k : key) :
  In k keys ->
  exists k0, find (fun k' => (fst k' =? fst k)
                             && season_eqb (snd k') (snd k)) keys = Some k0.
Proof.
  intro H.
  destruct (find (fun k' => (fst k' =? fst k)
                            && season_eqb (snd k') (snd k)) keys)
    as [k0|] eqn:E; [eauto|].
  exfalso. pose proof (@find_none _ _ keys E k H) as Hf. simpl in Hf.
  rewrite Z.eqb_refl in Hf. simpl in Hf.
  assert (season_eqb (snd k) (snd k) = true) by (apply season_eqb_eq; reflexivity).
  congruence.
Qed.

Lemma nlargest_nil (T : Type) (n : Z) (j : nat) :
  series_nlargest_all n j (@nil (row T)) = [].
Proof.
  pose proof (nlargest_length_le n j (@nil (row T))) as H.
  destruct (series_nlargest_all n j []); [reflexivity | simpl in H; lia].
Qed.

(** The rows selected from a partition are [nlargest] of that partition:
    no other partition has a say. *)
Lemma select_top_n_group (df sel : cframe) (n : Z) (j : nat) (k : key) :
  get_loc "Score" (columns df) = Some j ->
  select_top_n df n = Ok sel ->
  get_group k (rows sel) = series_nlargest_all n j (get_group k (rows df)).
Proof.
  intros Hj Hsel. rewrite (select_top_n_ok _ n Hj) in Hsel.
  injection Hsel as <-. cbn [rows].
  rewrite get_group_flat_map.
  - destruct (get_group k (rows df)) as [|r0 g] eqn:Hg.
    + rewrite nlargest_nil. destruct (find _ _); reflexivity.
    + assert (Hin : In k (group_keys (rows df))).
      { apply group_keys_In. exists r0.
        assert (H : In r0 (get_group k (rows df))) by (rewrite Hg; left; reflexivity).
        apply get_group_In in H. exact H. }
      destruct (find_key_some _ _ Hin) as [k0 ->]. reflexivity.
  - eapply StronglySorted_NoDup; [exact key_lt_irrefl|].
    apply group_keys_sorted.
  - intros k' x Hx. apply nlargest_subset in Hx. destruct Hx as [Hx _].
    apply get_group_In in Hx. apply Hx.
Qed.

(** X7 — The selector works partition by partition and takes at least
    [n] rows where it can: the rows it returns for a partition are
    [nlargest(n, keep="all")] of that partition alone and never more than
    the partition has; with [n >= 1] and no null score they are at least
    [min(n, size of the partition)], so every partition that has a row
    keeps at least one. *)
Theorem selection_per_partition (df sel : cframe) (n : Z) (j : nat)
    (k : key) :
  get_loc "Score" (columns df) = Some j ->
  select_top_n df n = Ok sel ->
  get_group k (rows sel) = series_nlargest_all n j (get_group k (rows df)) /\
  (length (get_group k (rows sel)) <= length (get_group k (rows df)))%nat /\
  (1 <= n ->
   (forall x, In x (rows df) -> notna (cell j x) = true) ->
   (Nat.min (Z.to_nat n) (length (get_group k (rows df)))
    <= length (get_group k (rows sel)))%nat).
Proof.
  intros Hj Hsel. rewrite (@select_top_n_group df sel n j k Hj Hsel).
  split; [reflexivity|]. split; [apply nlargest_length_le|].
  intros Hn Hna. apply nlargest_length_ge; [exact Hn|].
  intros x Hx. apply get_group_In in Hx. apply Hna. apply Hx.
Qed.

Lemma selection_per_partition_witness :
  exists sel,
    select_top_n tie_sample 5 = Ok sel /\
    Nat.le 5 (length (get_group (2020, fall) (rows sel))).
Proof.
  eexists. split; [reflexivity|].
  refine (proj2 (proj2 (@selection_per_partition tie_sample _ 5 0%nat
                          (2020, fall) eq_refl eq_refl)) _ _).
  - lia.
  - intros x Hx. simpl in Hx.
    repeat (destruct Hx as [<- | Hx]; [reflexivity|]). destruct Hx.
Defined.

(** ** The partitions of the output *)

Lemma sorted_unique_ext (A : Type) (R : A -> A -> Prop) (l1 l2 : list A) :
  (forall a, ~ R a a) -> (forall a b, R a b -> R b a -> False) ->
  StronglySorted R l1 -> StronglySorted R l2 ->
  (forall x, In x l1 <-> In x l2) -> l1 = l2.
Proof.
  intros Hirr Hasym H1. revert l2.
  induction H1 as [|a t1 Ht1 IH Ha]; intros l2 H2 Hext.
  - destruct l2 as [|b t2]; [reflexivity|].
    exfalso. apply (proj2 (Hext b)). left. reflexivity.
  - destruct l2 as [|b t2].
    + exfalso. apply (proj1 (Hext a)). left. reflexivity.
    + inversion H2 as [|? ? Ht2 Hb]; subst.
      rewrite Forall_forall in Ha, Hb.
      assert (Eab : a = b).
      { destruct (proj1 (Hext a) (or_introl eq_refl)) as [E | Hin];
          [symmetry; exact E|].
        destruct (proj2 (Hext b) (or_introl eq_refl)) as [E | Hin'];
          [exact E|].
        exfalso. exact (Hasym a b (Ha b Hin') (Hb a Hin)). }
      subst b. f_equal. apply IH; [exact Ht2|].
      intro x. split; intro Hx.
      * destruct (proj1 (Hext x) (or_intror Hx)) as [E | Hin]; [|exact Hin].
        subst x. exfalso. exact (Hirr a (Ha a Hx)).
      * destruct (proj2 (Hext x) (or_intror Hx)) as [E | Hin]; [|exact Hin].
        subst x. exfalso. exact (Hirr a (Hb a Hx)).
Qed.

Lemma key_lt_asym (a b : key) : key_lt a b -> key_lt b a -> False.
Proof. unfold key_lt. lia. Qed.

(** With [n >= 1] every partition of the input is still there after the
    selection. *)
Lemma select_top_n_keys (df sel : cframe) (n : Z) (j : nat) :
  get_loc "Score" (columns df) = Some j ->
  1 <= n ->
  (forall x, In x (rows df) -> notna (cell j x) = true) ->
  select_top_n df n = Ok sel ->
  group_keys (rows sel) = group_keys (rows df).
Proof.
  intros Hj Hn Hna Hsel.
  apply (sorted_unique_ext key_lt_irrefl key_lt_asym
           (group_keys_sorted _) (group_keys_sorted _)).
  intro k. rewrite !group_keys_In. split.
  - intros [r [Hr Hk]]. exists r. split; [|exact Hk].
    apply (select_top_n_subset _ _ _ Hsel Hr).
  - intros [r [Hr Hk]].
    assert (Hg : In r (get_group k (rows df))) by (apply get_group_In; auto).
    assert (Hpna : forall x, In x (get_group k (rows df)) ->
                             notna (cell j x) = true).
    { intros x Hx. apply get_group_In in Hx. apply Hna. apply Hx. }
    pose proof (@nlargest_length_ge _ n j (get_group k (rows df)) Hn Hpna)
      as Hlen.
    rewrite <- (@select_top_n_group df sel n j k Hj Hsel) in Hlen.
    destruct (get_group k (rows sel)) as [|r1 g1] eqn:Hg1.
    + exfalso. destruct (get_group k (rows df)); [destruct Hg|].
      simpl in Hlen. lia.
    + exists r1. apply get_group_In. rewrite Hg1. left. reflexivity.
Qed.

Lemma select_top_n_finite (df sel : cframe) (n : Z) :
  (forall r, In r (rows df) -> Forall finite_or_na (cells r)) ->
  select_top_n df n = Ok sel ->
  forall r, In r (rows sel) -> Forall finite_or_na (cells r).
Proof.
  intros H Hsel r Hr. apply H. apply (select_top_n_subset _ _ _ Hsel Hr).
Qed.

Lemma only_genres_index (basic_headers : list string) (df : cframe)
    (n : Z) (j : nat) :
  get_loc "Score" (columns df) = Some j ->
  1 <= n ->
  (forall x, In x (rows df) -> notna (cell j x) = true) ->
  (forall r, In r (rows df) -> Forall finite_or_na (cells r)) ->
  exists out,
    only_genres_for_top_n basic_headers df n = Ok out /\
    columns out = columns_difference (columns df) basic_headers /\
    map index_key (rows out) =
    map (fun k => (fst k, Some (snd k))) (group_keys (rows df)).
Proof.
  intros Hj Hn Hna Hfin.
  pose proof (select_top_n_ok df n Hj) as Hsel.
  pose proof (@select_top_n_finite df _ n Hfin Hsel) as Hfin'.
  pose proof (select_top_n_has_column _ _ Hsel) as Hcol.
  pose proof (@aggregate_genres_rows basic_headers _ Hfin' Hcol) as Hagg.
  eexists. split; [unfold only_genres_for_top_n; rewrite Hsel; exact Hagg|].
  pose proof (@select_top_n_keys df _ n j Hj Hn Hna Hsel) as Hkeys.
  cbn [rows columns] in *. split; [reflexivity|].
  rewrite map_map. cbn [index_key project Year Season group_sum].
  rewrite Hkeys. reflexivity.
Qed.

(** X8 — Which partitions the aggregated table has does not depend on
    [n].  On a table with finite cells and no null score, for all
    [n, m >= 1] the tables of [only_genres_for_top_n] for [n] and for [m]
    have the same rows index: one row for every (Year, Season) that some
    row of the input carries, and no other.  The top-5 and the top-10
    table of [analyze_trend] therefore cover the same partitions. *)
Theorem partitions_independent_of_n (basic_headers : list string)
    (df : cframe) (n m : Z) (j : nat) :
  get_loc "Score" (columns df) = Some j ->
  1 <= n -> 1 <= m ->
  (forall x, In x (rows df) -> notna (cell j x) = true) ->
  (forall r, In r (rows df) -> Forall finite_or_na (cells r)) ->
  exists out_n out_m,
    only_genres_for_top_n basic_headers df n = Ok out_n /\
    only_genres_for_top_n basic_headers df m = Ok out_m /\
    map index_key (rows out_n) = map index_key (rows out_m) /\
    columns out_n = columns out_m /\
    (forall y s,
       In (y, Some s) (map index_key (rows out_n)) <->
       exists r, In r (rows df) /\ Year r = y /\ Season r = Some s).
Proof.
  intros Hj Hn Hm Hna Hfin.
  destruct (@only_genres_index basic_headers df n j Hj Hn Hna Hfin)
    as (out_n & Hout_n & Hcn & Hin).
  destruct (@only_genres_index basic_headers df m j Hj Hm Hna Hfin)
    as (out_m & Hout_m & Hcm & Him).
  exists out_n, out_m. split; [exact Hout_n|]. split; [exact Hout_m|].
  split; [congruence|]. split; [congruence|].
  intros y s. rewrite Hin, in_map_iff. split.
  - intros [k [E Hk]]. injection E as <- <-.
    apply group_keys_In in Hk. destruct Hk as [r [Hr Hk]].
    apply has_key_iff in Hk. exists r. tauto.
  - intros [r [Hr [Hy Hs]]]. exists (y, s). split; [reflexivity|].
    apply group_keys_In. exists r. split; [exact Hr|].
    apply has_key_iff. auto.
Qed.

Lemma partitions_independent_of_n_witness :
  exists out5 out10,
    only_genres_for_top_n ["Score"] tie_sample 5 = Ok out5 /\
    only_genres_for_top_n ["Score"] tie_sample 10 = Ok out10 /\
    map index_key (rows out5) = map index_key (rows out10).
Proof.
  destruct (@partitions_independent_of_n ["Score"] tie_sample 5 10 0%nat
              eq_refl) as (o5 & o10 & H5 & H10 & Hk & _).
  - lia.
  - lia.
  - intros x Hx. simpl in Hx.
    repeat (destruct Hx as [<- | Hx]; [reflexivity|]). destruct Hx.
  - intros x Hx. simpl in Hx.
    repeat (destruct Hx as [<- | Hx]; [repeat constructor|]). destruct Hx.
  - exists o5, o10. auto.
Defined.

(** ** The cells of the aggregated table *)

Lemma group_sum_cell (selected : cframe) (k : key) (j : nat) :
  (forall r, In r (rows selected) -> Forall finite_or_na (cells r)) ->
  get_group k (rows selected) <> [] ->
  (j < length (columns selected))%nat ->
  cell j (group_sum selected k) =
  Num.sum (map (cell j) (get_group k (rows selected))).
Proof.
  intros Hfin Hne Hj. unfold cell at 1.
  rewrite (proj2 (@group_sum_observed selected Hfin k Hne)).
  apply nth_error_nth. apply nth_error_map_seq. exact Hj.
Qed.

Lemma sum_of_counts (l : list value) :
  Forall count_or_na l -> exists q, Num.sum l = Fin q /\ (0 <= q)%Q.
Proof.
  intro H.
  assert (Hf : Forall finite_or_na l).
  { eapply Forall_impl; [|exact H]. intros a. apply count_finite. }
  destruct (sum_finite Hf) as [s [Hs Hq]]. exists s. split; [exact Hs|].
  rewrite Hq. apply qsum_nonneg. exact H.
Qed.

(** X9 — The aggregated table holds counts and nothing else.  If the
    numeric cells of the input are finite or null and the cells of the
    columns outside [basic_headers] are non-negative or null, then the
    table of [only_genres_for_top_n] is rectangular and each of its cells
    is a finite non-negative number: no NaN and no infinity reaches the
    filter and the plots. *)
Theorem aggregated_counts (basic_headers : list string) (df : cframe)
    (n : Z) :
  In "Score" (columns df) ->
  (forall r, In r (rows df) -> Forall finite_or_na (cells r)) ->
  (forall r c j, In r (rows df) -> get_loc c (columns df) = Some j ->
                 ~ In c basic_headers -> count_or_na (cell j r)) ->
  exists out,
    only_genres_for_top_n basic_headers df n = Ok out /\
    wf out /\
    forall r', In r' (rows out) ->
      Forall (fun v => exists q, v = Fin q /\ (0 <= q)%Q) (cells r').
Proof.
  intros Hscore Hfin Hcount. destruct (get_loc_some _ _ Hscore) as [j0 Hj0].
  pose proof (select_top_n_ok df n Hj0) as Hsel.
  set (sel := mkFrame (columns df)
                (flat_map (fun k => series_nlargest_all n j0
                                      (get_group k (rows df)))
                   (group_keys (rows df)))) in *.
  pose proof (@select_top_n_finite df sel n Hfin Hsel) as Hfin'.
  pose proof (select_top_n_has_column _ _ Hsel) as Hcol.
  pose proof (@aggregate_genres_rows basic_headers sel Hfin' Hcol) as Hagg.
  eexists. split; [unfold only_genres_for_top_n; rewrite Hsel; exact Hagg|].
  assert (Hrows : forall r',
             In r' (map (fun k => project basic_headers sel (group_sum sel k))
                      (group_keys (rows sel))) ->
             length (cells r') = length (genre_labels basic_headers sel) /\
             Forall (fun v => exists q, v = Fin q /\ (0 <= q)%Q) (cells r')).
  { intros r' Hr'. apply in_map_iff in Hr'.
    destruct Hr' as [k [<- Hk]]. unfold project. cbn [cells].
    split; [apply length_map|].
    apply Forall_map. apply Forall_forall. intros c Hc.
    unfold genre_labels in Hc.
    apply columns_difference_In in Hc. destruct Hc as [Hc Hnb].
    destruct (get_loc_some _ _ Hc) as [j Hj].
    unfold loc_of. rewrite Hj.
    assert (Hne : get_group k (rows sel) <> []).
    { apply existsb_get_group. apply group_keys_In in Hk.
      apply existsb_exists. exact Hk. }
    rewrite (@group_sum_cell sel k j Hfin' Hne).
    - apply sum_of_counts. apply Forall_map. apply Forall_forall.
      intros x Hx. apply get_group_In in Hx. destruct Hx as [Hx _].
      apply (Hcount x c j); [|exact Hj | exact Hnb].
      apply (select_top_n_subset _ _ _ Hsel Hx).
    - apply nth_error_Some. rewrite (get_loc_nth _ _ Hj). discriminate. }
  split.
  - intros r' Hr'. apply (Hrows r' Hr').
  - intros r' Hr'. apply (Hrows r' Hr').
Qed.

Lemma cell_count (T : Type) (j : nat) (r : row T) :
  Forall count_or_na (cells r) -> count_or_na (cell j r).
Proof.
  intro H. unfold cell.
  destruct (nth_in_or_default j (cells r) NaN) as [Hin | ->]; [|exact I].
  rewrite Forall_forall in H. apply H. exact Hin.
Qed.

Lemma aggregated_counts_witness :
  exists out,
    only_genres_for_top_n ["Score"] pair_sample 5 = Ok out /\ wf out.
Proof.
  destruct (@aggregated_counts ["Score"] pair_sample 5) as (out & H & Hwf & _).
  - simpl. auto.
  - intros r [<- | [<- | []]]; repeat constructor.
  - intros r c j Hr _ _. apply cell_count.
    destruct Hr as [<- | [<- | []]]; repeat constructor; simpl; discriminate.
  - exists out. split; assumption.
Defined.

(** ** A table without a Score column *)

(** X10 — The Score column is required, and its absence is reported by
    name.  [analyze_trend] on a table without a Score column raises
    [KeyError] for "Score" before anything is computed; and
    [only_genres_for_top_n], called on its own on such a table, raises
    the same error as soon as one row lies in one of the four seasons. *)
Theorem missing_score_raises (basic_headers : list string) :
  (forall raw : frame string,
     ~ In "Score" (columns raw) ->
     analyze_trend basic_headers raw = Raise (KeyError "Score")) /\
  (forall (df : cframe) (n : Z) (r : crow) (s : season),
     ~ In "Score" (columns df) ->
     In r (rows df) -> Season r = Some s ->
     only_genres_for_top_n basic_headers df n = Raise (KeyError "Score")).
Proof.
  split.
  - intros raw H. apply get_loc_none in H.
    unfold analyze_trend, dropna_subset. rewrite H. reflexivity.
  - intros df n r s H Hr Hs. apply get_loc_none in H.
    unfold only_genres_for_top_n. rewrite (select_top_n_no_score _ n H).
    destruct (group_keys (rows df)) as [|k ks] eqn:Hk; [|reflexivity].
    exfalso.
    assert (Hin : In (Year r, s) (group_keys (rows df))).
    { apply group_keys_In. exists r. split; [exact Hr|].
      apply has_key_iff. auto. }
    rewrite Hk in Hin. exact Hin.
Qed.

Lemma missing_score_raises_witness :
  analyze_trend ["Rank"]
    (mkFrame ["Rank"; "Action"] [mkRow 2020 "fall" [Fin 1; Fin 1]])
  = Raise (KeyError "Score") /\
  only_genres_for_top_n ["Rank"]
    (mkFrame ["Rank"; "Action"] [mkRow 2020 (Some fall) [Fin 1; Fin 1]]) 5
  = Raise (KeyError "Score").
Proof.
  split.
  - apply (proj1 (missing_score_raises ["Rank"])).
    simpl. intuition discriminate.
  - apply (proj2 (missing_score_raises ["Rank"]) _ 5
             (mkRow 2020 (Some fall) [Fin 1; Fin 1]) fall).
    + simpl. intuition discriminate.
    + left. reflexivity.
    + reflexivity.
Defined.

(** ** Season names *)

Lemma Categorical_name (s : string) (c : season) :
  Categorical s = Some c <-> s = season_name c.
Proof.
  unfold Categorical.
  destruct (String.eqb_spec s "winter") as [-> | H1].
  { destruct c; simpl; split; intro H; try reflexivity; discriminate. }
  destruct (String.eqb_spec s "spring") as [-> | H2].
  { destruct c; simpl; split; intro H; try reflexivity; discriminate. }
  destruct (String.eqb_spec s "summer") as [-> | H3].
  { destruct c; simpl; split; intro H; try reflexivity; discriminate. }
  destruct (String.eqb_spec s "fall") as [-> | H4].
  { destruct c; simpl; split; intro H; try reflexivity; discriminate. }
  split; [discriminate|]. intros ->. destruct c; simpl in *; congruence.
Qed.

(** X11 — Seasons are matched by their exact lower-case name, and
    anything else is left out without notice.  A season string becomes a
    category exactly when it is spelled "winter", "spring", "summer" or
    "fall"; and every row the selector returns inside [analyze_trend]
    comes from a row of the raw table that has a score and one of these
    four spellings, with its year and cells unchanged. *)
Theorem seasons_matched_exactly :
  (forall (s : string) (c : season),
     Categorical s = Some c <-> s = season_name c) /\
  (forall (raw d : frame string) (sel : cframe) (n : Z) (j : nat),
     get_loc "Score" (columns raw) = Some j ->
     dropna_subset "Score" raw = Ok d ->
     select_top_n (set_season_categorical d) n = Ok sel ->
     forall r, In r (rows sel) ->
       exists r0 c,
         In r0 (rows raw) /\ Season r0 = season_name c /\
         notna (cell j r0) = true /\
         r = mkRow (Year r0) (Some c) (cells r0)).
Proof.
  split; [exact Categorical_name|].
  intros raw d sel n j Hj Hd Hsel r Hr.
  unfold dropna_subset in Hd. rewrite Hj in Hd. injection Hd as <-.
  destruct (select_top_n_subset _ _ _ Hsel Hr) as (Hin & (k & Hk & _) & _).
  cbn [set_season_categorical rows columns] in Hin.
  apply in_map_iff in Hin. destruct Hin as [r0 [<- Hr0]].
  apply filter_In in Hr0. destruct Hr0 as [Hr0 Hna].
  apply has_key_iff in Hk. cbn [Season Year] in Hk. destruct Hk as [_ Hs].
  exists r0, (snd k). split; [exact Hr0|].
  split; [apply Categorical_name; exact Hs|].
  split; [exact Hna|]. rewrite Hs. reflexivity.
Qed.

Lemma seasons_matched_exactly_witness :
  Categorical "fall" = Some fall /\
  exists r0 c,
    In r0 (rows raw_sample) /\ Season r0 = season_name c /\
    notna (cell 0 r0) = true /\
    mkRow 2021 (Some winter) [Fin 7; Fin 3; Fin 1; Fin 1] =
      mkRow (Year r0) (Some c) (cells r0).
Proof.
  split.
  - apply (proj2 (proj1 seasons_matched_exactly "fall" fall)). reflexivity.
  - refine (proj2 seasons_matched_exactly raw_sample _ _ 5 0%nat
              eq_refl eq_refl eq_refl
              (mkRow 2021 (Some winter) [Fin 7; Fin 3; Fin 1; Fin 1]) _).
    simpl. intuition.
Defined.

(** ** The three tables of [analyze_trend] *)





(** ** The order of the selected rows *)







(** ** The column order of the stacked area plot *)

Lemma insert_entry_perm (x : string * value) (l : list (string * value)) :
  Permutation (insert_entry x l) (x :: l).
Proof.
  induction l as [|y t IH]; simpl; [apply Permutation_refl|].
  destruct (before_desc (snd x) (snd y)); [apply Permutation_refl|].
  eapply Permutation_trans; [apply perm_skip; exact IH | apply perm_swap].
Qed.

Lemma sort_values_desc_perm (s : list (string * value)) :
  Permutation (sort_values_desc s) s.
Proof.
  induction s as [|x s IH]; simpl; [apply Permutation_refl|].
  eapply Permutation_trans; [apply insert_entry_perm|].
  apply perm_skip. exact IH.
Qed.

Lemma before_desc_total (a b : value) :
  before_desc a b = false -> before_desc b a = true.
Proof.
  unfold before_desc. destruct (isna b) eqn:Eb; [discriminate|].
  destruct (isna a) eqn:Ea; [reflexivity|]. intro H.
  destruct (leb_total a b) as [H' | H']; unfold notna;
    rewrite ?Ea, ?Eb; auto. congruence.
Qed.

Lemma before_desc_trans (a b c : value) :
  before_desc a b = true -> before_desc b c = true ->
  before_desc a c = true.
Proof.
  unfold before_desc. destruct (isna c) eqn:Ec; [reflexivity|].
  destruct (isna b) eqn:Eb; [discriminate|].
  destruct (isna a) eqn:Ea; [discriminate|].
  intros H1 H2. eapply leb_trans; eassumption.
Qed.

Lemma insert_entry_In (x y : string * value) (l : list (string * value)) :
  In y (insert_entry x l) <-> y = x \/ In y l.
Proof.
  split; intro H.
  - apply (Permutation_in _ (insert_entry_perm x l)) in H.
    destruct H as [-> | H]; auto.
  - apply (Permutation_in _ (Permutation_sym (insert_entry_perm x l))).
    destruct H as [-> | H]; [left; reflexivity | right; exact H].
Qed.

Lemma insert_entry_sorted (x : string * value) (l : list (string * value)) :
  StronglySorted (fun a b => before_desc (snd a) (snd b) = true) l ->
  StronglySorted (fun a b => before_desc (snd a) (snd b) = true)
    (insert_entry x l).
Proof.
  induction 1 as [|a l Hl IH Ha]; simpl; [repeat constructor|].
  destruct (before_desc (snd x) (snd a)) eqn:E.
  - constructor; [constructor; assumption|].
    constructor; [exact E|].
    eapply Forall_impl; [|exact Ha]. intros b Hb.
    eapply before_desc_trans; eassumption.
  - constructor; [exact IH|].
    apply Forall_forall. intros b Hb. apply insert_entry_In in Hb.
    destruct Hb as [-> | Hb]; [apply before_desc_total; exact E|].
    rewrite Forall_forall in Ha. apply Ha. exact Hb.
Qed.

Lemma sort_values_desc_sorted (s : list (string * value)) :
  StronglySorted (fun a b => before_desc (snd a) (snd b) = true)
    (sort_values_desc s).
Proof.
  induction s as [|x s IH]; simpl; [constructor|].
  apply insert_entry_sorted. exact IH.
Qed.

Lemma StronglySorted_map_in (A B : Type) (R : A -> A -> Prop)
    (R' : B -> B -> Prop) (f : A -> B) (l : list A) :
  (forall a b, In a l -> In b l -> R a b -> R' (f a) (f b)) ->
  StronglySorted R l -> StronglySorted R' (map f l).
Proof.
  intros Hf Hs. induction Hs as [|a l Hl IH Ha]; simpl; constructor.
  - apply IH. intros x y Hx Hy. apply Hf; right; assumption.
  - apply Forall_map. apply Forall_forall. intros b Hb.
    rewrite Forall_forall in Ha.
    apply Hf; [left; reflexivity | right; exact Hb | apply Ha; exact Hb].
Qed.

Lemma is_unique_NoDup (l : list string) : NoDup l -> is_unique l = true.
Proof.
  induction 1 as [|c t Hc _ IH]; simpl; [reflexivity|].
  rewrite IH. apply mem_false in Hc. rewrite Hc. reflexivity.
Qed.

Lemma labels_eqb_eq (a b : list string) : labels_eqb a b = true -> a = b.
Proof.
  revert b. induction a as [|x a IH]; intros [|y b]; simpl;
    try discriminate; [reflexivity|].
  intro H. apply andb_true_iff in H. destruct H as [H1 H2].
  apply String.eqb_eq in H1. subst y. f_equal. apply IH. exact H2.
Qed.

Lemma combine_fst (A B : Type) (l1 : list A) (l2 : list B) :
  length l1 = length l2 -> map fst (combine l1 l2) = l1.
Proof.
  revert l2. induction l1 as [|a l1 IH]; intros [|b l2] H; simpl in *;
    try discriminate; [reflexivity|].
  f_equal. apply IH. lia.
Qed.

Lemma in_combine_nth (A B : Type) (l1 : list A) (l2 : list B) (a : A)
    (b : B) :
  In (a, b) (combine l1 l2) ->
  exists i, nth_error l1 i = Some a /\ nth_error l2 i = Some b.
Proof.
  revert l2. induction l1 as [|x l1 IH]; intros [|y l2] H; simpl in H;
    try contradiction.
  destruct H as [E | H].
  - injection E as <- <-. exists 0%nat. split; reflexivity.
  - destruct (IH l2 H) as [i [H1 H2]]. exists (S i). split; assumption.
Qed.

Section StackedAreaFacts.
Variable T : Type.
Variable df : frame T.
Hypothesis unique_labels : NoDup (columns df).

Lemma sum_axis0_labels : map fst (sum_axis0 df) = columns df.
Proof.
  unfold sum_axis0. apply combine_fst. rewrite length_map, length_seq.
  reflexivity.
Qed.

Lemma sum_axis0_total (c : string) (v : value) :
  In (c, v) (sum_axis0 df) -> v = column_total df c.
Proof.
  intro H. unfold sum_axis0 in H. apply in_combine_nth in H.
  destruct H as [i [Hc Hv]].
  assert (Hi : (i < length (columns df))%nat).
  { apply nth_error_Some. congruence. }
  rewrite nth_error_map_seq in Hv by exact Hi. injection Hv as <-.
  unfold column_total, loc_of.
  rewrite (@get_loc_nodup c (columns df) i unique_labels Hc). reflexivity.
Qed.

Lemma sorted_labels_perm :
  Permutation (map fst (sort_values_desc (sum_axis0 df))) (columns df).
Proof.
  eapply Permutation_trans;
    [apply Permutation_map; apply sort_values_desc_perm|].
  rewrite sum_axis0_labels. apply Permutation_refl.
Qed.

Lemma sorted_labels_order :
  StronglySorted
    (fun c1 c2 => before_desc (column_total df c1) (column_total df c2) = true)
    (map fst (sort_values_desc (sum_axis0 df))).
Proof.
  apply (StronglySorted_map_in
           (R := fun a b => before_desc (snd a) (snd b) = true)).
  - intros [c1 v1] [c2 v2] H1 H2 H. simpl in *.
    apply (Permutation_in _ (sort_values_desc_perm _)) in H1.
    apply (Permutation_in _ (sort_values_desc_perm _)) in H2.
    rewrite <- (sum_axis0_total _ _ H1), <- (sum_axis0_total _ _ H2).
    exact H.
  - apply sort_values_desc_sorted.
Qed.

(** Re-indexing by a rearrangement of the labels keeps, under every
    label, the cells and the sum of the column. *)
Lemma reindex_columns_ok (labels : list string) :
  Permutation labels (columns df) ->
  exists df',
    reindex_columns labels df = Ok df' /\
    columns df' = labels /\
    map (@Year T) (rows df') = map (@Year T) (rows df) /\
    map (@Season T) (rows df') = map (@Season T) (rows df) /\
    (forall i r r' c,
       nth_error (rows df) i = Some r -> nth_error (rows df') i = Some r' ->
       In c labels -> get_cell df' c r' = get_cell df c r) /\
    (forall c, In c labels -> column_total df' c = column_total df c).
Proof.
  intro Hperm. unfold reindex_columns.
  destruct (labels_eqb labels (columns df)) eqn:E.
  - apply labels_eqb_eq in E. exists df. split; [reflexivity|].
    split; [symmetry; exact E|]. split; [reflexivity|].
    split; [reflexivity|]. split; [|reflexivity].
    intros i r r' c Hr Hr' _. congruence.
  - rewrite (is_unique_NoDup unique_labels). eexists.
    split; [reflexivity|]. cbn [rows columns].
    split; [reflexivity|]. split; [rewrite map_map; reflexivity|].
    split; [rewrite map_map; reflexivity|].
    assert (Hcell : forall (c : string) (r : row T), In c labels ->
              cell (loc_of c labels)
                (mkRow (Year r) (Season r)
                   (map (fun c => match get_loc c (columns df) with
                                  | Some j => cell j r
                                  | None => NaN
                                  end) labels))
              = cell (loc_of c (columns df)) r).
    { intros c r Hc. destruct (get_loc_some _ _ Hc) as [i Hi].
      assert (Hc' : In c (columns df)) by (eapply Permutation_in; eassumption).
      destruct (get_loc_some _ _ Hc') as [j Hj].
      unfold loc_of. rewrite Hi, Hj. unfold cell at 1. cbn [cells].
      rewrite (nth_error_nth _ _ _
                 (map_nth_error
                    (fun c => match get_loc c (columns df) with
                              | Some j => cell j r
                              | None => NaN
                              end) _ _ (get_loc_nth _ _ Hi))).
      rewrite Hj. reflexivity. }
    split.
    + intros i r r' c Hr Hr' Hc.
      rewrite nth_error_map, Hr in Hr'. simpl in Hr'. injection Hr' as <-.
      assert (Hc' : In c (columns df)) by (eapply Permutation_in; eassumption).
      specialize (Hcell c r Hc). unfold get_cell. cbn [columns].
      destruct (get_loc_some _ _ Hc) as [i' Hi'].
      destruct (get_loc_some _ _ Hc') as [j Hj].
      unfold loc_of in Hcell. rewrite Hi', Hj in Hcell.
      rewrite Hi', Hj. simpl. f_equal. exact Hcell.
    + intros c Hc. unfold column_total. cbn [rows columns].
      rewrite map_map. f_equal. apply map_ext. intro r.
      apply Hcell. exact Hc.
Qed.
End StackedAreaFacts.

(** X14 — The table behind the stacked area plot.  For a table with
    unique labels [plot_stacked_area] draws a table that has the same
    columns in another order, the same rows under the same keys and,
    under every label, the same cells; its columns stand in descending
    order of their sums (a NaN sum last), so the most frequent genre
    comes first; and the wide colour map [gist_ncar] is chosen exactly
    when there are more than 20 columns. *)
Theorem stacked_area_order (T : Type) (df : frame T) :
  NoDup (columns df) ->
  exists df' cmap,
    plot_stacked_area df = Ok (df', cmap) /\
    Permutation (columns df') (columns df) /\
    map (@Year T) (rows df') = map (@Year T) (rows df) /\
    map (@Season T) (rows df') = map (@Season T) (rows df) /\
    (forall i r r' c,
       nth_error (rows df) i = Some r -> nth_error (rows df') i = Some r' ->
       In c (columns df) -> get_cell df' c r' = get_cell df c r) /\
    StronglySorted
      (fun c1 c2 =>
         before_desc (column_total df' c1) (column_total df' c2) = true)
      (columns df') /\
    (cmap = gist_ncar <-> (20 < length (columns df))%nat).
Proof.
  intro Hnd.
  pose proof (sorted_labels_perm df) as Hperm.
  destruct (@reindex_columns_ok T df Hnd _ Hperm)
    as (df' & Hre & Hcols & Hy & Hs & Hcell & Htot).
  exists df', (if (20 <? length (columns df'))%nat then gist_ncar else tab20).
  split; [unfold plot_stacked_area; rewrite Hre; reflexivity|].
  split; [rewrite Hcols; exact Hperm|].
  split; [exact Hy|]. split; [exact Hs|].
  split; [|split].
  - intros i r r' c Hr Hr' Hc. apply (Hcell i r r' c Hr Hr').
    apply (Permutation_in _ (Permutation_sym Hperm)). exact Hc.
  - rewrite Hcols.
    pose proof (@sorted_labels_order T df Hnd) as Hsorted.
    assert (Hgen : forall l,
               (forall c, In c l ->
                  In c (map fst (sort_values_desc (sum_axis0 df)))) ->
               StronglySorted
                 (fun c1 c2 => before_desc (column_total df c1)
                                 (column_total df c2) = true) l ->
               StronglySorted
                 (fun c1 c2 => before_desc (column_total df' c1)
                                 (column_total df' c2) = true) l).
    { intros l Hin Hl. induction Hl as [|a t Ht IH Ha]; constructor.
      - apply IH. intros c Hc. apply Hin. right. exact Hc.
      - rewrite Forall_forall in *. intros b Hb.
        rewrite (Htot a (Hin a (or_introl eq_refl))).
        rewrite (Htot b (Hin b (or_intror Hb))). apply Ha. exact Hb. }
    apply Hgen; [auto | exact Hsorted].
  - rewrite Hcols, (Permutation_length Hperm).
    destruct (Nat.ltb_spec 20 (length (columns df))) as [H | H].
    + split; [intros _; exact H | reflexivity].
    + split; [discriminate | lia].
Qed.

Lemma stacked_area_order_witness :
  exists df' cmap,
    plot_stacked_area ten_seasons = Ok (df', cmap) /\
    Permutation (columns df') ["A"; "B"].
Proof.
  destruct (@stacked_area_order _ ten_seasons) as (df' & cmap & H & Hp & _).
  - repeat constructor; simpl; intuition discriminate.
  - exists df', cmap. split; [exact H | exact Hp].
Defined.

(** ** The labels of the aggregated table *)

Section SortUniqSorted.
Variable A : Type.
Variable lt_b eq_b : A -> A -> bool.
Hypothesis eq_b_true : forall x y, eq_b x y = true -> x = y.
Hypothesis lt_b_trans :
  forall x y z, lt_b x y = true -> lt_b y z = true -> lt_b x z = true.
Hypothesis lt_b_connex :
  forall x y, lt_b x y = false -> eq_b x y = false -> lt_b y x = true.


End SortUniqSorted.








(** ** The plotted proportions *)

Lemma keep_mask_Forall (A : Type) (P : A -> Prop) (mask : list bool)
    (l : list A) :
  Forall P l -> Forall P (keep_mask mask l).
Proof.
  intro H. apply Forall_forall. intros x Hx.
  rewrite Forall_forall in H. apply H. eapply keep_mask_In. exact Hx.
Qed.

(** X16 — The trend table is a table of shares of the genres that were
    kept.  For a table of counts (non-negative or null cells)
    [plot_trend] returns a table in which every row either consists of
    proportions between 0 and 1 that add up to 1, the sum being taken
    over the kept columns only, or is NaN in every column (when the kept
    genres have no count in that partition). *)
Theorem plot_trend_proportions (T : Type) (df : frame T) :
  (forall r, In r (rows df) -> Forall count_or_na (cells r)) ->
  exists res,
    plot_trend df = Ok res /\
    forall r', In r' (rows res) ->
      (Forall proportion_or_na (cells r') /\
       equiv (Num.sum (cells r')) (Fin 1)) \/
      Forall (fun v => v = NaN) (cells r').
Proof.
  intro Hc. unfold plot_trend.
  pose proof (plot_trend_for_ok 20 (4 # 10) df) as H. cbv zeta in H.
  eexists. split; [exact H|].
  intros r' Hr'. rewrite normalize_rows in Hr'. cbn [rows] in Hr'.
  apply in_map_iff in Hr'. destruct Hr' as [r1 [<- Hr1]].
  apply in_map_iff in Hr1. destruct Hr1 as [r [<- Hr]].
  unfold tail in Hr. cbn [rows] in Hr. apply skipn_In in Hr.
  cbn [normalize_row cells].
  set (kept := keep_mask _ (cells r)).
  assert (Hk : Forall count_or_na kept).
  { apply keep_mask_Forall. apply Hc. exact Hr. }
  assert (Hf : Forall finite_or_na kept).
  { eapply Forall_impl; [|exact Hk]. intros a. apply count_finite. }
  destruct (sum_finite Hf) as [s [Hs _]].
  destruct (Qeq_dec s 0) as [Hz | Hnz].
  - right. apply zero_sum_all_na; [exact Hk|]. rewrite Hs. exact Hz.
  - left. eapply proportions_row; eassumption.
Qed.

Lemma plot_trend_proportions_witness :
  exists res, plot_trend ten_seasons = Ok res.
Proof.
  destruct (@plot_trend_proportions _ ten_seasons) as (res & H & _).
  - intros r Hr. simpl in Hr.
    repeat (destruct Hr as [<- | Hr];
            [repeat constructor; simpl; discriminate|]).
    destruct Hr.
  - exists res. exact H.
Defined.
